(** * Startup and lifecycle of the Jaeger collector (cmd/collector/main.go)

    The collector's [Run] closure performs a sequence of fallible setup
    steps, launches two goroutines (the Zipkin HTTP API and the primary HTTP
    API), signals readiness on the health check and blocks on the signal
    channel.  The development below embeds that code as resumption trees,
    gives the goroutines an interleaving semantics driven by a schedule and
    an oracle for the outcomes of the external calls, and proves the ordering
    and error-handling properties of the start-up sequence over every
    schedule and every oracle. *)

From Stdlib Require Import ZArith Lia DecimalString DecimalZ DecimalPos.
From stdpp Require Import base list strings.

Local Open Scope string_scope.
Local Open Scope list_scope.

(** ** Data *)

(** A Go [error]; the nil error is [None] of [option error]. *)
Definition error := string.

(** builder.CollectorOptions, the four ports that main.go reads. *)
Record CollectorOptions := {
  CollectorPort : Z;
  CollectorHTTPPort : Z;
  CollectorZipkinHTTPPort : Z;
  CollectorHealthCheckHTTPPort : Z
}.

(** strconv.Itoa: the decimal representation, with a leading minus sign
    for a negative number. *)
Definition Itoa (i : Z) : string := NilZero.string_of_int (Z.to_int i).

(** net/http status codes used by main.go. *)
Definition StatusServiceUnavailable : Z := 503%Z.
Definition StatusInternalServerError : Z := 500%Z.

Definition serviceName : string := "jaeger-collector".

(** ** HTTP handlers *)

Definition Request := string.

(** What running a handler on one request ends in: a response with a status
    code, or a fault (a Go panic) that the handler did not recover. *)
Inductive Outcome :=
| Responded (status : Z)
| Faulted (fault : string).

Record LogEntry := { log_fault : string; log_stack : bool }.

(** An http.Handler: the log lines it writes and its outcome. *)
Definition Handler := Request -> list LogEntry * Outcome.

(** Modelled from the spec: pkg/recoveryhandler (NewRecoveryHandler) is not
    part of the sources at hand.  The middleware intercepts a fault of the
    wrapped handler, logs it (with a stack trace when [printStack] is set)
    and answers that request with HTTP 500; a request that does not fault
    passes through unchanged. *)
Definition NewRecoveryHandler (printStack : bool) (h : Handler) : Handler :=
  fun req =>
    match h req with
    | (logs, Responded s) => (logs, Responded s)
    | (logs, Faulted f) =>
        (logs ++ [{| log_fault := f; log_stack := printStack |}],
         Responded StatusInternalServerError)
    end.

(** Modelled from the spec: the serving loop behind a listener.  Requests
    are handled in order, each response is recorded with its request; a
    fault that escapes the handler terminates the listener and the
    remaining requests are not served. *)
Record Served := {
  responses : list (Request * Z);
  server_log : list LogEntry;
  listening : bool
}.

Fixpoint serveRequests (h : Handler) (reqs : list Request) : Served :=
  match reqs with
  | [] => {| responses := []; server_log := []; listening := true |}
  | req :: rest =>
      match h req with
      | (logs, Responded s) =>
          let r := serveRequests h rest in
          {| responses := (req, s) :: responses r;
             server_log := logs ++ server_log r;
             listening := listening r |}
      | (logs, Faulted _) =>
          {| responses := []; server_log := logs; listening := false |}
      end
  end.

(** ** Programs *)

(** Fallible external calls: each returns an error or nil. *)
Inductive Call :=
| healthcheck_Serve (state port : Z)
| NewSpanHandlerBuilder
| NewChannel (name : string)
| net_Listen (network address : string).

Inductive API := JaegerAPI | ZipkinAPI.

(** External calls that cannot fail, and the two health-check writes. *)
Inductive Effect :=
| NewServer
| BuildHandlers
| Register (service : string)
| ch_Serve
| NewRouter
| RegisterRoutes (api : API)
| MakeRecoveryHandler (printStack : bool)
| Info (msg key : string) (value : Z)
| Finishing
| hc_Set (state : Z)
| hc_Ready.

(** A goroutine's code as a resumption: what it does next and how it goes
    on.  [Awaiting] is the only run-time form: the goroutine is inside
    http.ListenAndServe. *)
Inductive Prog :=
| Ret
| Do (e : Effect) (k : Prog)
| Try (c : Call) (k : option error -> Prog)
| Fatal (msg : string) (err : error)
| Go (child : Prog) (k : Prog)
| ListenAndServe (addr : string) (h : Handler) (k : option error -> Prog)
| Awaiting (addr : string) (k : option error -> Prog)
| Recv (k : Prog).

(** The collaborators whose route tables are mounted on the two routers. *)
Record Routes := { apiRoutes : Handler; zipkinRoutes : Handler }.

(** func startZipkinHTTPAPI (main.go, lines 150-166). *)
Definition startZipkinHTTPAPI (rt : Routes) (zipkinPort : Z)
    (recoveryHandler : Handler -> Handler) : Prog :=
  if decide (zipkinPort <> 0%Z) then
    Do NewRouter (
    Do (RegisterRoutes ZipkinAPI) (
    let httpPortStr := ":" +:+ Itoa zipkinPort in
    Do (Info "Listening for Zipkin HTTP traffic" "zipkin.http-port" zipkinPort) (
    ListenAndServe httpPortStr (recoveryHandler (zipkinRoutes rt)) (fun err =>
      match err with
      | Some e => Fatal "Could not launch service" e
      | None => Ret
      end))))
  else Ret.

(** The goroutine of the primary HTTP API (main.go, lines 118-123). *)
Definition primaryHTTP (httpPortStr : string) (h : Handler) : Prog :=
  ListenAndServe httpPortStr h (fun err =>
    match err with
    | Some e => Fatal "Could not launch service" e
    | None => Do (hc_Set StatusInternalServerError) Ret
    end).

(** The [Run] closure of the command (main.go, lines 75-129), from the call
    of healthcheck.Serve on; [builderOpts] is the value that InitFromViper
    returned. *)
Definition Run (rt : Routes) (builderOpts : CollectorOptions) : Prog :=
  Try (healthcheck_Serve StatusServiceUnavailable
         (CollectorHealthCheckHTTPPort builderOpts)) (fun err =>
  match err with
  | Some e => Fatal "Could not start the health check server." e
  | None =>
  Try NewSpanHandlerBuilder (fun err =>
  match err with
  | Some e => Fatal "Unable to set up builder" e
  | None =>
  Try (NewChannel serviceName) (fun err =>
  match err with
  | Some e => Fatal "Unable to create new TChannel" e
  | None =>
  Do NewServer (
  Do BuildHandlers (
  Do (Register "jaeger.Collector") (
  Do (Register "zipkincore.ZipkinCollector") (
  let portStr := ":" +:+ Itoa (CollectorPort builderOpts) in
  Try (net_Listen "tcp" portStr) (fun err =>
  match err with
  | Some e => Fatal "Unable to start listening on channel" e
  | None =>
  Do ch_Serve (
  Do NewRouter (
  Do (RegisterRoutes JaegerAPI) (
  let httpPortStr := ":" +:+ Itoa (CollectorHTTPPort builderOpts) in
  Do (MakeRecoveryHandler true) (
  let recoveryHandler := NewRecoveryHandler true in
  Go (startZipkinHTTPAPI rt (CollectorZipkinHTTPPort builderOpts) recoveryHandler) (
  Do (Info "Starting Jaeger Collector HTTP server" "http-port"
        (CollectorHTTPPort builderOpts)) (
  Go (primaryHTTP httpPortStr (recoveryHandler (apiRoutes rt))) (
  Do hc_Ready (
  Recv (
  Do Finishing
  Ret)))))))))
  end)))))
  end)
  end)
  end).

(** ** Semantics *)

(** The outcomes of the external calls.  [serve_returns tid addr] is what
    http.ListenAndServe returns to goroutine [tid] when it returns, [None]
    when it serves for the rest of the process's life. *)
Record Env := {
  answer : Call -> option error;
  serve_returns : nat -> string -> option (option error);
  StatusReady : Z
}.

Inductive Event :=
| EvCall (c : Call) (r : option error)
| EvDo (e : Effect)
| EvGo (child : Prog)
| EvListenAndServe (addr : string) (h : Handler)
| EvServeReturned (addr : string) (r : option error)
| EvFatal (msg : string) (err : error)
| EvSignal.

Record State := {
  threads : list Prog;
  health : option Z;
  trace : list (nat * Event);
  exited : option Z
}.

Definition init (p : Prog) : State :=
  {| threads := [p]; health := None; trace := []; exited := None |}.

(** Modelled from the spec: pkg/healthcheck is not part of the sources at
    hand.  Serve installs the initial status code, Set overwrites the
    status code, Ready is Set with the code that reports readiness. *)
Definition health_write (env : Env) (ev : Event) : option Z :=
  match ev with
  | EvCall (healthcheck_Serve s _) None => Some s
  | EvDo (hc_Set s) => Some s
  | EvDo hc_Ready => Some (StatusReady env)
  | _ => None
  end.

(** The goroutines that an event launches. *)
Definition children (ev : Event) : list Prog :=
  match ev with
  | EvGo child => [child]
  | _ => []
  end.

(** Goroutine [tid] performs [ev] and goes on as [k]: the event is appended
    to the trace, a health-check write takes effect, a launched goroutine
    joins the pool. *)
Definition emit (env : Env) (tid : nat) (ev : Event) (k : Prog) (st : State) : State :=
  {| threads := <[tid := k]> (threads st) ++ children ev;
     health := match health_write env ev with
               | Some s => Some s
               | None => health st
               end;
     trace := trace st ++ [(tid, ev)];
     exited := exited st |}.

Definition exit (code : Z) (st : State) : State :=
  {| threads := threads st; health := health st; trace := trace st;
     exited := Some code |}.

Inductive Tick :=
| RunThread (tid : nat)
| DeliverSignal.

(** One step of goroutine [tid].  logger.Fatal logs and ends the process
    with exit code 1; the return of goroutine 0, which runs [Run], ends it
    with exit code 0.  A goroutine inside ListenAndServe or waiting on the
    signal channel does not move until the call returns or the signal
    comes. *)
Definition step_thread (env : Env) (tid : nat) (st : State) : State :=
  match threads st !! tid with
  | None => st
  | Some p =>
      match p with
      | Ret => if decide (tid = 0) then exit 0 st else st
      | Do e k => emit env tid (EvDo e) k st
      | Try c k => emit env tid (EvCall c (answer env c)) (k (answer env c)) st
      | Fatal msg err => exit 1 (emit env tid (EvFatal msg err) Ret st)
      | Go child k => emit env tid (EvGo child) k st
      | ListenAndServe addr h k =>
          emit env tid (EvListenAndServe addr h) (Awaiting addr k) st
      | Awaiting addr k =>
          match serve_returns env tid addr with
          | Some r => emit env tid (EvServeReturned addr r) (k r) st
          | None => st
          end
      | Recv _ => st
      end
  end.

(** The signal channel is unbuffered and signal.Notify does not block: a
    signal is received only by a goroutine 0 that waits in the select. *)
Definition step_signal (env : Env) (st : State) : State :=
  match threads st !! 0 with
  | Some (Recv k) => emit env 0 EvSignal k st
  | _ => st
  end.

Definition step (env : Env) (st : State) (t : Tick) : State :=
  match exited st with
  | Some _ => st
  | None =>
      match t with
      | RunThread tid => step_thread env tid st
      | DeliverSignal => step_signal env st
      end
  end.

Definition run_from (env : Env) (st : State) (sched : list Tick) : State :=
  fold_left (step env) sched st.

Definition run (env : Env) (rt : Routes) (opts : CollectorOptions)
    (sched : list Tick) : State :=
  run_from env (init (Run rt opts)) sched.

(** ** The events of one goroutine *)

(** Everything a goroutine with code [p] does when it is run to its end
    under the oracle [env], in order. *)
Fixpoint events (env : Env) (tid : nat) (p : Prog) : list Event :=
  match p with
  | Ret => []
  | Do e k => EvDo e :: events env tid k
  | Try c k => EvCall c (answer env c) :: events env tid (k (answer env c))
  | Fatal msg err => [EvFatal msg err]
  | Go child k => EvGo child :: events env tid k
  | ListenAndServe addr h k =>
      EvListenAndServe addr h ::
      match serve_returns env tid addr with
      | Some r => EvServeReturned addr r :: events env tid (k r)
      | None => []
      end
  | Awaiting addr k =>
      match serve_returns env tid addr with
      | Some r => EvServeReturned addr r :: events env tid (k r)
      | None => []
      end
  | Recv k => EvSignal :: events env tid k
  end.

(** The events of goroutine [tid] in a trace, and the goroutines that the
    trace launched. *)
Definition proj (tid : nat) (tr : list (nat * Event)) : list Event :=
  (filter (λ x, x.1 = tid) tr).*2.

Definition spawned (tr : list (nat * Event)) : list Prog :=
  flat_map (λ x, children x.2) tr.

(** The health-check writes of a trace, oldest first. *)
Definition health_history (env : Env) (tr : list (nat * Event)) : list Z :=
  omap (λ x, health_write env x.2) tr.

(** The code that each goroutine of the collector starts with. *)
Definition code (rt : Routes) (opts : CollectorOptions) (tid : nat) : Prog :=
  match tid with
  | 0 => Run rt opts
  | 1 => startZipkinHTTPAPI rt (CollectorZipkinHTTPPort opts) (NewRecoveryHandler true)
  | 2 => primaryHTTP (":" +:+ Itoa (CollectorHTTPPort opts))
           (NewRecoveryHandler true (apiRoutes rt))
  | _ => Ret
  end.

(** Boolean tests on events. *)
Definition is_go (e : Event) : bool :=
  match e with EvGo _ => true | _ => false end.
Definition is_ready (e : Event) : bool :=
  match e with EvDo hc_Ready => true | _ => false end.
Definition is_set (e : Event) : bool :=
  match e with EvDo (hc_Set _) => true | _ => false end.
Definition is_fatal (e : Event) : bool :=
  match e with EvFatal _ _ => true | _ => false end.
Definition is_listen_and_serve (e : Event) : bool :=
  match e with EvListenAndServe _ _ => true | _ => false end.
Definition is_call (e : Event) : bool :=
  match e with EvCall _ _ => true | _ => false end.
Definition is_bound (e : Event) : bool :=
  match e with EvCall (net_Listen _ _) None => true | _ => false end.
Definition is_health_served (e : Event) : bool :=
  match e with EvCall (healthcheck_Serve _ _) None => true | _ => false end.

(** [before P Q seen l]: every element of [l] that satisfies [Q] comes
    after an element that satisfies [P] ([seen]: one came already). *)
Fixpoint before (P Q : Event -> bool) (seen : bool) (l : list Event) : bool :=
  match l with
  | [] => true
  | x :: r => (if Q x then seen else true) && before P Q (seen || P x) r
  end.

(** ** Observations on events and traces *)

Definition launches (l : list Event) : list Prog := flat_map children l.

Fixpoint count (Q : Event -> bool) (l : list Event) : nat :=
  match l with
  | [] => 0
  | x :: r => (if Q x then 1 else 0) + count Q r
  end.

Definition is_failed_call (e : Event) : bool :=
  match e with EvCall _ (Some _) => true | _ => false end.

(** Events that neither launch, serve, write the health status nor fail. *)
Definition quiet (e : Event) : bool :=
  negb (is_go e || is_ready e || is_set e || is_listen_and_serve e
        || is_fatal e || is_failed_call e).

Definition is_returned_nil (e : Event) : bool :=
  match e with EvServeReturned _ None => true | _ => false end.

(** Named events of [Run]. *)
Definition health_served (opts : CollectorOptions) : Event :=
  EvCall (healthcheck_Serve StatusServiceUnavailable
            (CollectorHealthCheckHTTPPort opts)) None.

Definition bound (opts : CollectorOptions) : Event :=
  EvCall (net_Listen "tcp" (":" +:+ Itoa (CollectorPort opts))) None.

(** What [Run] did before the call of net.Listen. *)
Definition before_listen (opts : CollectorOptions) : list Event :=
  [health_served opts; EvCall NewSpanHandlerBuilder None;
   EvCall (NewChannel serviceName) None;
   EvDo NewServer; EvDo BuildHandlers;
   EvDo (Register "jaeger.Collector");
   EvDo (Register "zipkincore.ZipkinCollector")].

Definition launch_zipkin (rt : Routes) (opts : CollectorOptions) : Event :=
  EvGo (code rt opts 1).
Definition launch_primary (rt : Routes) (opts : CollectorOptions) : Event :=
  EvGo (code rt opts 2).

(** What [Run] does from the call of net.Listen on when every start-up call
    succeeds. *)
Definition after_listen (rt : Routes) (opts : CollectorOptions) : list Event :=
  [bound opts; EvDo ch_Serve; EvDo NewRouter; EvDo (RegisterRoutes JaegerAPI);
   EvDo (MakeRecoveryHandler true); launch_zipkin rt opts;
   EvDo (Info "Starting Jaeger Collector HTTP server" "http-port"
           (CollectorHTTPPort opts));
   launch_primary rt opts].

Definition started (env : Env) (opts : CollectorOptions) : Prop :=
  answer env (healthcheck_Serve StatusServiceUnavailable
                (CollectorHealthCheckHTTPPort opts)) = None /\
  answer env NewSpanHandlerBuilder = None /\
  answer env (NewChannel serviceName) = None /\
  answer env (net_Listen "tcp" (":" +:+ Itoa (CollectorPort opts))) = None.

(** What the recovery middleware makes of a handler: every request is
    answered, a faulting one with HTTP 500 and a log entry. *)
Definition recovered_status (inner : Handler) (req : Request) : Z :=
  match (inner req).2 with
  | Responded s => s
  | Faulted _ => StatusInternalServerError
  end.

Definition recovered_log (printStack : bool) (inner : Handler) (req : Request)
    : list LogEntry :=
  (inner req).1 ++
  match (inner req).2 with
  | Responded _ => []
  | Faulted f => [{| log_fault := f; log_stack := printStack |}]
  end.








(** ** Steps and the invariant of runs *)

(** A step either changes nothing but the exit code, or is one [emit]
    of the next event of the goroutine that moved. *)
Inductive Moved (env : Env) (st : State) : State -> Prop :=
| moved_none : Moved env st st
| moved_exit : exited st = None -> threads st !! 0 = Some Ret -> Moved env st (exit 0 st)
| moved_emit : forall tid p ev k,
    exited st = None ->
    threads st !! tid = Some p ->
    events env tid p = ev :: events env tid k ->
    is_fatal ev = false ->
    Moved env st (emit env tid ev k st)
| moved_fatal : forall tid msg err,
    exited st = None ->
    threads st !! tid = Some (Fatal msg err) ->
    Moved env st (exit 1 (emit env tid (EvFatal msg err) Ret st)).

(** The invariant of every run from [init p0]: each goroutine has done a
    prefix of the events of the code it started with and is about to do
    the rest; goroutine 0 started with [p0], goroutine [i+1] with the
    code of the [i]-th launch of the trace. *)
Record Inv (env : Env) (p0 : Prog) (st : State) : Prop := {
  inv_len : length (threads st) = S (length (spawned (trace st)));
  inv_thr : forall tid p pi,
    threads st !! tid = Some p ->
    (p0 :: spawned (trace st)) !! tid = Some pi ->
    proj tid (trace st) ++ events env tid p = events env tid pi;
  inv_none : forall tid, length (threads st) <= tid -> proj tid (trace st) = [];
  inv_fresh : forall tid p pi,
    threads st !! tid = Some p ->
    (p0 :: spawned (trace st)) !! tid = Some pi ->
    proj tid (trace st) = [] -> p = pi;
  inv_health : health st = last (health_history env (trace st));
  inv_fatal : forall tid msg err,
    In (tid, EvFatal msg err) (trace st) -> exited st = Some 1%Z;
  inv_exit : forall c, exited st = Some c ->
    (c = 1%Z /\ exists tid msg err, In (tid, EvFatal msg err) (trace st)) \/
    (c = 0%Z /\ threads st !! 0 = Some Ret)
}.

(** ** Concrete configurations *)

(** Every external call succeeds, both servers serve for good. *)
Definition env_ok : Env :=
  {| answer := fun _ => None;
     serve_returns := fun _ _ => None;
     StatusReady := 204%Z |}.

Definition routes_demo : Routes :=
  {| apiRoutes := fun req =>
       if String.eqb req "/api/traces" then ([], Responded 202%Z)
       else ([], Faulted "nil pointer dereference");
     zipkinRoutes := fun req => ([], Responded 202%Z) |}.

Definition opts_default : CollectorOptions :=
  {| CollectorPort := 14267;
     CollectorHTTPPort := 14268;
     CollectorZipkinHTTPPort := 9411;
     CollectorHealthCheckHTTPPort := 14269 |}.

(** Goroutine 0 alone runs for [n] steps. *)
Definition main_only (n : nat) : list Tick := repeat (RunThread 0) n.

(** net.Listen fails: the port is taken. *)
Definition env_bind_fails : Env :=
  {| answer := fun c =>
       match c with
       | net_Listen _ _ => Some "bind: address already in use"
       | _ => None
       end;
     serve_returns := fun _ _ => None;
     StatusReady := 204%Z |}.

(** healthcheck.Serve fails. *)
Definition env_health_fails : Env :=
  {| answer := fun c =>
       match c with
       | healthcheck_Serve _ _ => Some "bind: address already in use"
       | _ => None
       end;
     serve_returns := fun _ _ => None;
     StatusReady := 204%Z |}.

(** http.ListenAndServe of the primary front-end returns an error, or nil. *)
Definition env_serve_error : Env :=
  {| answer := fun _ => None;
     serve_returns := fun tid _ =>
       if decide (tid = 2) then Some (Some "accept: use of closed network connection")
       else None;
     StatusReady := 204%Z |}.

Definition env_serve_nil : Env :=
  {| answer := fun _ => None;
     serve_returns := fun tid _ => if decide (tid = 2) then Some None else None;
     StatusReady := 204%Z |}.

(** The secondary front-end is switched off. *)
Definition opts_no_zipkin : CollectorOptions :=
  {| CollectorPort := 14267;
     CollectorHTTPPort := 14268;
     CollectorZipkinHTTPPort := 0;
     CollectorHealthCheckHTTPPort := 14269 |}.

(** The RPC port is 0. *)
Definition opts_rpc_port_zero : CollectorOptions :=
  {| CollectorPort := 0;
     CollectorHTTPPort := 14268;
     CollectorZipkinHTTPPort := 9411;
     CollectorHealthCheckHTTPPort := 14269 |}.

(** Goroutine 0 up to the select, then the goroutine of the primary
    front-end until http.ListenAndServe has returned. *)
Definition sched_primary : list Tick :=
  main_only 16 ++ [RunThread 2; RunThread 2].


(** ** Further observations *)

Definition is_signal (e : Event) : bool :=
  match e with EvSignal => true | _ => false end.
Definition is_ch_serve (e : Event) : bool :=
  match e with EvDo ch_Serve => true | _ => false end.

Definition is_failed_return (e : Event) : bool :=
  match e with EvServeReturned _ (Some _) => true | _ => false end.
Definition is_new_router (e : Event) : bool :=
  match e with EvDo NewRouter => true | _ => false end.
Definition is_jaeger_routes (e : Event) : bool :=
  match e with EvDo (RegisterRoutes JaegerAPI) => true | _ => false end.

(** The events after which a start-up call was certainly made: a launch,
    the readiness signal, or a fatal log. *)
Definition is_late (e : Event) : bool := is_go e || is_ready e || is_fatal e.

(** The three start-up calls that precede net.Listen return nil. *)
Definition reaches_bind (env : Env) (opts : CollectorOptions) : Prop :=
  answer env (healthcheck_Serve StatusServiceUnavailable
                (CollectorHealthCheckHTTPPort opts)) = None /\
  answer env NewSpanHandlerBuilder = None /\
  answer env (NewChannel serviceName) = None.

(** Code that never enters http.ListenAndServe. *)
Fixpoint straight (p : Prog) : Prop :=
  match p with
  | Ret => True
  | Do _ k => straight k
  | Try _ k => forall r, straight (k r)
  | Fatal _ _ => True
  | Go _ k => straight k
  | ListenAndServe _ _ _ => False
  | Awaiting _ _ => False
  | Recv k => straight k
  end.

(** The elements of a list that pass a test, in order. *)
Fixpoint keep (Q : Event -> bool) (l : list Event) : list Event :=
  match l with
  | [] => []
  | x :: r => if Q x then x :: keep Q r else keep Q r
  end.

(** The entries of a trace that are calls, with the goroutine of each. *)
Definition calls_made (tr : list (nat * Event)) : list (nat * Event) :=
  List.filter (fun x => is_call x.2) tr.

(** The fatal logs of main.go: the goroutine that logs, the message, and
    the failure that the log reports, as a function of its error. *)
Definition fatal_causes (opts : CollectorOptions)
    : list (nat * string * (error -> Event)) :=
  [(0, "Could not start the health check server.",
    fun e => EvCall (healthcheck_Serve StatusServiceUnavailable
                       (CollectorHealthCheckHTTPPort opts)) (Some e));
   (0, "Unable to set up builder",
    fun e => EvCall NewSpanHandlerBuilder (Some e));
   (0, "Unable to create new TChannel",
    fun e => EvCall (NewChannel serviceName) (Some e));
   (0, "Unable to start listening on channel",
    fun e => EvCall (net_Listen "tcp" (":" +:+ Itoa (CollectorPort opts))) (Some e));
   (1, "Could not launch service",
    fun e => EvServeReturned (":" +:+ Itoa (CollectorZipkinHTTPPort opts)) (Some e));
   (2, "Could not launch service",
    fun e => EvServeReturned (":" +:+ Itoa (CollectorHTTPPort opts)) (Some e))].

(** Every fatal log of the list comes directly after its cause; [prev] is
    the event before the list. *)
Fixpoint fatal_after (opts : CollectorOptions) (t : nat) (prev : option Event)
    (l : list Event) : Prop :=
  match l with
  | [] => True
  | e :: r =>
      match e with
      | EvFatal msg err =>
          exists cause, In (t, msg, cause) (fatal_causes opts) /\
                        prev = Some (cause err)
      | _ => True
      end /\ fatal_after opts t (Some e) r
  end.

(** Calls made one after the other until one returns an error. *)
Fixpoint until_failure (env : Env) (cs : list Call) : list Event :=
  match cs with
  | [] => []
  | c :: r =>
      EvCall c (answer env c) ::
      match answer env c with
      | None => until_failure env r
      | Some _ => []
      end
  end.

(** The fallible calls of [Run], in the order of main.go. *)
Definition startup_calls (opts : CollectorOptions) : list Call :=
  [healthcheck_Serve StatusServiceUnavailable (CollectorHealthCheckHTTPPort opts);
   NewSpanHandlerBuilder;
   NewChannel serviceName;
   net_Listen "tcp" (":" +:+ Itoa (CollectorPort opts))].

(** What startZipkinHTTPAPI does before it calls http.ListenAndServe. *)
Definition zipkin_setup (opts : CollectorOptions) : list Event :=
  [EvDo NewRouter; EvDo (RegisterRoutes ZipkinAPI);
   EvDo (Info "Listening for Zipkin HTTP traffic" "zipkin.http-port"
           (CollectorZipkinHTTPPort opts))].

(** NewSpanHandlerBuilder fails; tchannel.NewChannel fails. *)
Definition env_builder_fails : Env :=
  {| answer := fun c =>
       match c with
       | NewSpanHandlerBuilder => Some "unknown span storage type"
       | _ => None
       end;
     serve_returns := fun _ _ => None;
     StatusReady := 204%Z |}.

Definition env_channel_fails : Env :=
  {| answer := fun c =>
       match c with
       | NewChannel _ => Some "no service name provided"
       | _ => None
       end;
     serve_returns := fun _ _ => None;
     StatusReady := 204%Z |}.

(** http.ListenAndServe of the Zipkin front-end returns an error, or nil. *)
Definition env_zipkin_error : Env :=
  {| answer := fun _ => None;
     serve_returns := fun tid _ =>
       if decide (tid = 1) then Some (Some "bind: address already in use")
       else None;
     StatusReady := 204%Z |}.

Definition env_zipkin_nil : Env :=
  {| answer := fun _ => None;
     serve_returns := fun tid _ => if decide (tid = 1) then Some None else None;
     StatusReady := 204%Z |}.

(** Goroutine 0 up to the select, then the Zipkin goroutine until
    http.ListenAndServe has returned. *)
Definition sched_zipkin : list Tick :=
  main_only 16 ++ [RunThread 1; RunThread 1; RunThread 1; RunThread 1; RunThread 1].

(** Both front-ends on port 8080. *)
Definition opts_shared_port : CollectorOptions :=
  {| CollectorPort := 14267;
     CollectorHTTPPort := 8080;
     CollectorZipkinHTTPPort := 8080;
     CollectorHealthCheckHTTPPort := 14269 |}.

(** How often a schedule runs goroutine 0. *)
Fixpoint main_ticks (sched : list Tick) : nat :=
  match sched with
  | [] => 0
  | RunThread 0 :: r => S (main_ticks r)
  | _ :: r => main_ticks r
  end.

(** ** Generic facts about the semantics *)

Section Semantics.
Context (env : Env).

Lemma proj_app tid a b : proj tid (a ++ b) = proj tid a ++ proj tid b.
Proof. unfold proj. by rewrite filter_app, fmap_app. Qed.

Lemma proj_one_eq tid e : proj tid [(tid, e)] = [e].
Proof. unfold proj. rewrite filter_cons_True by done. done. Qed.

Lemma proj_one_ne tid t e : t ≠ tid -> proj tid [(t, e)] = [].
Proof. intros. unfold proj. rewrite filter_cons_False by done. done. Qed.

Lemma proj_cons_eq tid e tr : proj tid ((tid, e) :: tr) = e :: proj tid tr.
Proof. unfold proj. rewrite filter_cons_True by done. done. Qed.

Lemma proj_cons_ne tid t e tr : t ≠ tid -> proj tid ((t, e) :: tr) = proj tid tr.
Proof. intros. unfold proj. rewrite filter_cons_False by done. done. Qed.

Lemma proj_In tid e tr : In e (proj tid tr) <-> In (tid, e) tr.
Proof.
  induction tr as [|[t x] tr IH]; [done|].
  destruct (decide (t = tid)) as [->|Hne].
  - rewrite proj_cons_eq. simpl. rewrite IH. split.
    + intros [->|?]; auto.
    + intros [[= ->]|?]; auto.
  - rewrite proj_cons_ne by done. simpl. rewrite IH. split; [auto|].
    intros [[= ? ?]|?]; [done|auto].
Qed.

Lemma spawned_app a b : spawned (a ++ b) = spawned a ++ spawned b.
Proof. unfold spawned. apply flat_map_app. Qed.

Lemma spawned_lookup tr i c :
  spawned tr !! i = Some c ->
  exists pre tid post, tr = pre ++ (tid, EvGo c) :: post /\ length (spawned pre) = i.
Proof.
  revert i. induction tr as [|[t e] tr IH] using rev_ind; intros i; [done|].
  rewrite spawned_app. intros H.
  destruct (decide (i < length (spawned tr))) as [Hlt|Hge].
  - rewrite lookup_app_l in H by done.
    destruct (IH _ H) as (pre & tid & post & -> & Hlen).
    exists pre, tid, (post ++ [(t, e)]). by rewrite <- app_assoc.
  - rewrite lookup_app_r in H by lia.
    destruct e; simpl in H; try done.
    destruct (i - length (spawned tr)) eqn:Hi; simpl in H; [|done].
    injection H as ->. exists tr, t, []. split; [done|lia].
Qed.

(** Runs only extend the trace, and never after the process has exited. *)
Lemma step_exited st t c : exited st = Some c -> step env st t = st.
Proof. unfold step. by intros ->. Qed.

Lemma run_from_exited st sched c : exited st = Some c -> run_from env st sched = st.
Proof.
  intros H. induction sched as [|t sched IH]; [done|].
  simpl. unfold run_from in IH. by rewrite (step_exited _ _ _ H).
Qed.

Lemma run_from_app st s1 s2 :
  run_from env st (s1 ++ s2) = run_from env (run_from env st s1) s2.
Proof. apply fold_left_app. Qed.

Lemma run_from_snoc st s t :
  run_from env st (s ++ [t]) = step env (run_from env st s) t.
Proof. by rewrite run_from_app. Qed.

Lemma step_moved st t : Moved env st (step env st t).
Proof.
  unfold step. destruct (exited st) eqn:Hex; [constructor|].
  destruct t as [tid|].
  - unfold step_thread. destruct (threads st !! tid) as [p|] eqn:Hp; [|constructor].
    destruct p as [|e k|c k|msg err|child k|addr h k|addr k|k].
    + case_decide; [subst tid; by constructor|constructor].
    + by eapply moved_emit.
    + by eapply moved_emit.
    + by eapply moved_fatal.
    + by eapply moved_emit.
    + eapply moved_emit; [done..| |done]. done.
    + destruct (serve_returns env tid addr) as [r|] eqn:Hr; [|constructor].
      eapply moved_emit; [done..| |done]. simpl. by rewrite Hr.
    + constructor.
  - unfold step_signal. destruct (threads st !! 0) as [p|] eqn:Hp; [|constructor].
    destruct p as [| | | | | | |k]; try apply moved_none. by eapply moved_emit.
Qed.

Lemma inv_init p0 : Inv env p0 (init p0).
Proof.
  split; simpl; try done.
  - intros [|tid] p pi; simpl; [|done]. by intros [= ->] [= ->].
  - intros [|tid] p pi; simpl; [|done]. by intros [= ->] [= ->].
Qed.

Lemma spawned_snoc tr tid ev : spawned (tr ++ [(tid, ev)]) = spawned tr ++ children ev.
Proof. rewrite spawned_app. unfold spawned at 2. simpl. by rewrite app_nil_r. Qed.

Lemma history_snoc tr tid ev :
  health_history env (tr ++ [(tid, ev)]) =
  health_history env tr ++ option_list (health_write env ev).
Proof.
  unfold health_history. rewrite omap_app. simpl.
  by destruct (health_write env ev).
Qed.

Lemma inv_emit_core p0 st tid p ev k :
  Inv env p0 st ->
  threads st !! tid = Some p ->
  events env tid p = ev :: events env tid k ->
  let st' := emit env tid ev k st in
  length (threads st') = S (length (spawned (trace st'))) /\
  (forall tid' p' pi,
    threads st' !! tid' = Some p' ->
    (p0 :: spawned (trace st')) !! tid' = Some pi ->
    proj tid' (trace st') ++ events env tid' p' = events env tid' pi) /\
  (forall tid', length (threads st') <= tid' -> proj tid' (trace st') = []) /\
  (forall tid' p' pi,
    threads st' !! tid' = Some p' ->
    (p0 :: spawned (trace st')) !! tid' = Some pi ->
    proj tid' (trace st') = [] -> p' = pi) /\
  health st' = last (health_history env (trace st')).
Proof.
  intros [Hlen Hthr Hnone Hfresh Hh _ _] Hp Hev. simpl.
  assert (Htid : tid < length (threads st)) by (by eapply lookup_lt_Some).
  rewrite spawned_snoc, history_snoc.
  repeat split.
  - rewrite !length_app, length_insert. lia.
  - intros tid' p' pi Hp' Hpi.
    destruct (decide (tid' < length (threads st))) as [Hlt|Hge].
    + rewrite lookup_app_l in Hp' by (by rewrite length_insert).
      rewrite app_comm_cons, lookup_app_l in Hpi by (simpl; lia).
      rewrite proj_app.
      destruct (decide (tid' = tid)) as [->|Hne].
      * rewrite list_lookup_insert_eq in Hp' by done. injection Hp' as <-.
        rewrite proj_one_eq, <- app_assoc. simpl. rewrite <- Hev. eauto.
      * rewrite list_lookup_insert_ne in Hp' by done.
        rewrite proj_one_ne, app_nil_r by done. eauto.
    + rewrite lookup_app_r in Hp' by (rewrite length_insert; lia).
      rewrite length_insert in Hp'.
      rewrite app_comm_cons, lookup_app_r in Hpi by (simpl; lia).
      simpl in Hpi. rewrite <- Hlen in Hpi.
      rewrite Hpi in Hp'. injection Hp' as <-.
      rewrite proj_app, Hnone, proj_one_ne by lia. done.
  - intros tid'. rewrite length_app, length_insert. intros Hle.
    rewrite proj_app, Hnone, proj_one_ne by lia. done.
  - intros tid' p' pi Hp' Hpi Hnil.
    destruct (decide (tid' < length (threads st))) as [Hlt|Hge].
    + rewrite lookup_app_l in Hp' by (by rewrite length_insert).
      rewrite app_comm_cons, lookup_app_l in Hpi by (simpl; lia).
      rewrite proj_app in Hnil. apply app_eq_nil in Hnil as [Hnil Hone].
      destruct (decide (tid' = tid)) as [->|Hne].
      * by rewrite proj_one_eq in Hone.
      * rewrite list_lookup_insert_ne in Hp' by done. eauto.
    + rewrite lookup_app_r in Hp' by (rewrite length_insert; lia).
      rewrite length_insert in Hp'.
      rewrite app_comm_cons, lookup_app_r in Hpi by (simpl; lia).
      simpl in Hpi. rewrite <- Hlen in Hpi.
      rewrite Hpi in Hp'. by injection Hp'.
  - destruct (health_write env ev) as [s|]; simpl.
    + by rewrite last_snoc.
    + by rewrite app_nil_r.
Qed.

Lemma step_inv p0 st t : Inv env p0 st -> Inv env p0 (step env st t).
Proof.
intros HI. destruct (step_moved st t) as [|Hex Hret|tid p ev k Hex Hp Hev Hnf|tid msg err Hex Hp].
- done.
- destruct HI as [? ? ? ? ? Hf ?]. split; try done.
  + intros tid msg err Hin. simpl in Hin. rewrite (Hf _ _ _ Hin) in Hex. done.
  + simpl. intros c [= <-]. by right.
- destruct (inv_emit_core p0 st tid p ev k HI Hp Hev) as (H1 & H2 & H3 & H4 & H5).
  split; try done.
  + intros tid' msg err Hin. simpl in Hin. apply in_app_or in Hin.
    destruct Hin as [Hin|[[= -> ->]|[]]]; [|done].
    simpl. by eapply inv_fatal.
  + simpl. intros c Hc. by rewrite Hc in Hex.
- destruct (inv_emit_core p0 st tid _ (EvFatal msg err) Ret HI Hp eq_refl)
    as (H1 & H2 & H3 & H4 & H5).
  split; try done. simpl. intros c [= <-]. left. split; [done|].
  exists tid, msg, err. apply in_or_app. right. by left.
Qed.

Lemma run_inv p0 sched : Inv env p0 (run_from env (init p0) sched).
Proof.
  induction sched as [|t sched IH] using rev_ind; [apply inv_init|].
  rewrite run_from_snoc. by apply step_inv.
Qed.

(** Every entry of a trace was the next event of its goroutine in an
    earlier state of the run. *)
Lemma run_split p0 sched pre tid e post :
  trace (run_from env (init p0) sched) = pre ++ (tid, e) :: post ->
  exists sched1 p,
    let st1 := run_from env (init p0) sched1 in
    trace st1 = pre /\ exited st1 = None /\
    threads st1 !! tid = Some p /\
    exists rest, events env tid p = e :: rest.
Proof.
  revert post. induction sched as [|t sched IH] using rev_ind; intros post.
  { simpl. by destruct pre. }
  rewrite run_from_snoc.
  set (st := run_from env (init p0) sched) in *.
  assert (Hlast : forall tid' ev p k,
    exited st = None -> threads st !! tid' = Some p ->
    events env tid' p = ev :: events env tid' k ->
    trace st ++ [(tid', ev)] = pre ++ (tid, e) :: post ->
    exists sched1 p1,
      let st1 := run_from env (init p0) sched1 in
      trace st1 = pre /\ exited st1 = None /\
      threads st1 !! tid = Some p1 /\
      exists rest, events env tid p1 = e :: rest).
  { intros tid' ev p k Hex Hp Hev Heq.
    destruct post as [|x post _] using rev_ind.
    - apply app_inj_tail in Heq as [Hpre [= -> ->]].
      exists sched, p. fold st. eauto.
    - rewrite app_comm_cons, app_assoc in Heq.
      apply app_inj_tail in Heq as [Heq _]. eauto. }
  destruct (step_moved st t) as [|Hex|tid' p ev k Hex Hp Hev Hnf|tid' msg err Hex Hp];
    simpl; eauto.
  intros Heq. by eapply (Hlast tid' (EvFatal msg err) _ Ret).
Qed.

(** The view of one goroutine: an entry of the trace continues the events
    that its goroutine did before, along the code the goroutine started
    with. *)
Lemma local_view p0 sched pre tid e post :
  trace (run_from env (init p0) sched) = pre ++ (tid, e) :: post ->
  exists pi rest,
    (p0 :: spawned pre) !! tid = Some pi /\
    events env tid pi = proj tid pre ++ e :: rest.
Proof.
  intros H. destruct (run_split _ _ _ _ _ _ H) as (sched1 & p & Hpre & Hex & Hp & rest & Hev).
  pose proof (run_inv p0 sched1) as [Hlen Hthr _ _ _ _ _].
  rewrite Hpre in *.
  destruct ((p0 :: spawned pre) !! tid) as [pi|] eqn:Hpi.
  - exists pi, rest. split; [done|]. rewrite <- Hev. symmetry. eauto.
  - apply lookup_ge_None in Hpi. apply lookup_lt_Some in Hp. simpl in Hpi. lia.
Qed.

End Semantics.

(** ** The goroutines of the collector *)

Arguments Itoa : simpl never.
Arguments NewRecoveryHandler : simpl never.
Arguments startZipkinHTTPAPI : simpl never.
Arguments primaryHTTP : simpl never.

Lemma before_sound P Q seen l l1 x l2 :
  before P Q seen l = true -> l = l1 ++ x :: l2 -> Q x = true ->
  seen || existsb P l1 = true.
Proof.
  revert seen l1. induction l as [|y l IH]; intros seen l1 Hb Heq HQ.
  { by destruct l1. }
  simpl in Hb. apply andb_prop in Hb as [H1 H2].
  destruct l1 as [|z l1]; simpl in Heq; injection Heq as -> ->.
  - rewrite HQ in H1. by rewrite H1.
  - specialize (IH _ _ H2 eq_refl HQ). simpl.
    by rewrite orb_assoc.
Qed.

Lemma before_exists P Q l l1 x l2 :
  before P Q false l = true -> l = l1 ++ x :: l2 -> Q x = true ->
  exists y, In y l1 /\ P y = true.
Proof.
  intros Hb Heq HQ. pose proof (before_sound _ _ _ _ _ _ _ Hb Heq HQ) as H.
  simpl in H. by apply existsb_exists in H.
Qed.

Lemma none_sound (Q : Event -> bool) l l1 x l2 :
  forallb (fun y => negb (Q y)) l = true -> l = l1 ++ x :: l2 -> Q x = false.
Proof.
  intros H ->. rewrite forallb_app in H. apply andb_prop in H as [_ H].
  simpl in H. apply andb_prop in H as [H _]. by apply negb_true_iff.
Qed.

(** Case analysis on the outcomes of the external calls in the goal. *)
Ltac oracle :=
  repeat match goal with
  | |- context [answer ?env ?c] => destruct (answer env c) eqn:?; simpl
  | |- context [serve_returns ?env ?t ?a] =>
      destruct (serve_returns env t a) as [[?|]|] eqn:?; simpl
  end.

Section Collector.
Context (env : Env) (rt : Routes) (opts : CollectorOptions).

(** The Zipkin goroutine and the primary goroutine launch nothing, do not
    signal readiness and make none of the start-up calls. *)
Lemma events_zipkin_none Q :
  Q (EvDo NewRouter) = false -> Q (EvDo (RegisterRoutes ZipkinAPI)) = false ->
  (forall m k v, Q (EvDo (Info m k v)) = false) ->
  (forall a h, Q (EvListenAndServe a h) = false) ->
  (forall a r, Q (EvServeReturned a r) = false) ->
  (forall m e, Q (EvFatal m e) = false) ->
  forallb (fun y => negb (Q y)) (events env 1 (code rt opts 1)) = true.
Proof.
  intros H1 H2 H3 H4 H5 H6. unfold code, startZipkinHTTPAPI.
  case_decide; simpl; [|done]. rewrite H1, H2, H3, H4. simpl.
  oracle; by rewrite ?H5, ?H6.
Qed.

Lemma events_primary_none Q :
  Q (EvDo (hc_Set StatusInternalServerError)) = false ->
  (forall a h, Q (EvListenAndServe a h) = false) ->
  (forall a r, Q (EvServeReturned a r) = false) ->
  (forall m e, Q (EvFatal m e) = false) ->
  forallb (fun y => negb (Q y)) (events env 2 (code rt opts 2)) = true.
Proof.
  intros H1 H2 H3 H4. unfold code, primaryHTTP. simpl. rewrite H2. simpl.
  oracle; by rewrite ?H1, ?H3, ?H4.
Qed.

Lemma launches_Run :
  launches (events env 0 (Run rt opts)) = [] \/
  launches (events env 0 (Run rt opts)) = [code rt opts 1; code rt opts 2].
Proof. unfold Run. simpl. oracle; auto. Qed.

Lemma launches_app a b : launches (a ++ b) = launches a ++ launches b.
Proof. apply flat_map_app. Qed.

Lemma spawned_main tr :
  (forall t c, In (t, EvGo c) tr -> t = 0) -> spawned tr = launches (proj 0 tr).
Proof.
  induction tr as [|[t e] tr IH]; intros H; [done|].
  assert (IH' : spawned tr = launches (proj 0 tr)).
  { apply IH. intros t' c Hin. apply (H t' c). by right. }
  change (spawned ((t, e) :: tr)) with (children e ++ spawned tr).
  destruct (decide (t = 0)) as [->|Hne].
  - rewrite proj_cons_eq. simpl. by rewrite IH'.
  - rewrite proj_cons_ne by done. rewrite <- IH'.
    destruct e; simpl; try done. exfalso. apply Hne. eapply H. by left.
Qed.

Lemma code_no_go tid l1 c l2 :
  tid <> 0 -> events env tid (code rt opts tid) <> l1 ++ EvGo c :: l2.
Proof.
  intros Hne Heq.
  destruct tid as [|[|[|tid]]]; [done| | |by destruct l1].
  - pose proof (events_zipkin_none is_go) as H.
    pose proof (none_sound is_go _ _ _ _ (H eq_refl eq_refl (fun _ _ _ => eq_refl)
      (fun _ _ => eq_refl) (fun _ _ => eq_refl) (fun _ _ => eq_refl)) Heq). done.
  - pose proof (events_primary_none is_go) as H.
    pose proof (none_sound is_go _ _ _ _ (H eq_refl
      (fun _ _ => eq_refl) (fun _ _ => eq_refl) (fun _ _ => eq_refl)) Heq). done.
Qed.

(** Goroutine 0 runs [Run], goroutine 1 is the Zipkin front-end and
    goroutine 2 the primary front-end; there is no other goroutine, and a
    goroutine moves only after goroutine 0 has launched it. *)
Lemma thread_view sched pre tid e post :
  trace (run env rt opts sched) = pre ++ (tid, e) :: post ->
  tid <= 2 /\
  (exists rest, events env tid (code rt opts tid) = proj tid pre ++ e :: rest) /\
  (tid <> 0 -> In (0, EvGo (code rt opts tid)) pre).
Proof.
  remember (length pre) as n eqn:Hn. revert pre tid e post Hn.
  induction n as [n IH] using lt_wf_ind. intros pre tid e post -> Htr.
  destruct (local_view env _ _ _ _ _ _ Htr) as (pi & rest & Hpi & Hev).
  destruct tid as [|i].
  { injection Hpi as <-. split; [lia|]. split; [eauto|done]. }
  simpl in Hpi.
  destruct (spawned_lookup _ _ _ Hpi) as (pre1 & t' & post1 & -> & Hlen).
  rewrite <- app_assoc in Htr. simpl in Htr.
  assert (Hgo : forall a t c b, pre1 ++ [(t', EvGo pi)] = a ++ (t, EvGo c) :: b ->
    t = 0 /\ exists rest', events env 0 (Run rt opts) = proj 0 a ++ EvGo c :: rest').
  { intros a t c b Heq.
    assert (Hlt : length a < length (pre1 ++ (t', EvGo pi) :: post1)).
    { apply (f_equal length) in Heq. rewrite !length_app in *. simpl in *. lia. }
    assert (Htr' : trace (run env rt opts sched) =
      a ++ (t, EvGo c) :: (b ++ post1 ++ (S i, e) :: post)).
    { rewrite Htr. change (pre1 ++ (t', EvGo pi) :: post1 ++ (S i, e) :: post)
        with (pre1 ++ [(t', EvGo pi)] ++ post1 ++ (S i, e) :: post).
      rewrite app_assoc, Heq, <- app_assoc. done. }
    destruct (IH _ Hlt _ _ _ _ eq_refl Htr') as (_ & (rest' & Hr) & _).
    destruct (decide (t = 0)) as [->|Hne]; [eauto|].
    by apply code_no_go in Hr. }
  destruct (Hgo pre1 t' pi [] eq_refl) as (-> & rest' & Hrun).
  assert (Hsp : spawned pre1 = launches (proj 0 pre1)).
  { apply spawned_main. intros t c Hin. apply in_split in Hin as (a & b & ->).
    eapply (Hgo a t c (b ++ [(0, EvGo pi)])). by rewrite <- app_assoc. }
  assert (Hl : launches (events env 0 (Run rt opts)) =
    spawned pre1 ++ pi :: launches rest').
  { rewrite Hrun, launches_app, Hsp. done. }
  assert (Hi : S i <= 2 /\ pi = code rt opts (S i)).
  { destruct launches_Run as [H0|H0]; rewrite H0 in Hl.
    - by destruct (spawned pre1).
    - destruct (spawned pre1) as [|x [|y [|z l]]]; simpl in *; subst i.
      + injection Hl as <- _. split; [lia|done].
      + injection Hl as _ <- _. split; [lia|done].
      + by injection Hl.
      + by injection Hl. }
  destruct Hi as [Hi ->]. split; [done|]. split; [eauto|].
  intros _. apply in_or_app. right. by left.
Qed.

End Collector.

(** ** Properties of the start-up sequence *)

Lemma count_app Q a b : count Q (a ++ b) = count Q a + count Q b.
Proof. induction a as [|x a IH]; simpl; [done|]. rewrite IH. lia. Qed.

(** An element that occurs once splits its list in one way only. *)
Lemma split_unique Q l a x b a' x' b' :
  count Q l <= 1 -> l = a ++ x :: b -> l = a' ++ x' :: b' ->
  Q x = true -> Q x' = true -> a = a' /\ x = x' /\ b = b'.
Proof.
  intros Hc -> Heq Hx Hx'. revert a' Heq Hc.
  induction a as [|y a IH]; intros a' Heq Hc.
  - destruct a' as [|z a']; simpl in Heq; injection Heq as -> ->; [done|].
    simpl in Hc. rewrite count_app in Hc. simpl in Hc. rewrite Hx, Hx' in Hc. lia.
  - destruct a' as [|z a']; simpl in Heq; injection Heq as -> Heq.
    + subst b'. simpl in Hc. rewrite count_app in Hc. simpl in Hc.
      rewrite Hx, Hx' in Hc. lia.
    + simpl in Hc. destruct (IH a' Heq) as (-> & -> & ->); [|done].
      destruct (Q z); lia.
Qed.

Lemma proj_last tid tr l e :
  proj tid tr = l ++ [e] ->
  exists pre post, tr = pre ++ (tid, e) :: post /\ proj tid pre = l.
Proof.
  induction tr as [|[t x] tr IH] using rev_ind; intros H.
  { by destruct l. }
  rewrite proj_app in H. destruct (decide (t = tid)) as [->|Hne].
  - rewrite proj_one_eq in H. apply app_inj_tail in H as [<- <-].
    by exists tr, [].
  - rewrite proj_one_ne, app_nil_r in H by done.
    destruct (IH H) as (pre & post & -> & Hl).
    exists pre, (post ++ [(t, x)]). by rewrite <- app_assoc.
Qed.

Section Properties.
Context (env : Env) (rt : Routes) (opts : CollectorOptions).

Ltac elements H :=
  repeat (destruct H as [H|H]; [try (subst; done)|]); try (by destruct H).

Abbreviation tr sched := (trace (run env rt opts sched)).

(** What each goroutine has done is a prefix of the events of its code. *)
Lemma proj_prefix sched tid :
  exists rest, events env tid (code rt opts tid) = proj tid (tr sched) ++ rest.
Proof.
  destruct (proj tid (tr sched)) as [|e l _] eqn:Hp using rev_ind; [eauto|].
  destruct (proj_last _ _ _ _ Hp) as (pre & post & Htr & <-).
  destruct (thread_view env rt opts _ _ _ _ _ Htr) as (_ & (rest & Hr) & _).
  exists rest. by rewrite <- app_assoc.
Qed.

Lemma entry_in_code sched tid e :
  In (tid, e) (tr sched) -> tid <= 2 /\ In e (events env tid (code rt opts tid)).
Proof.
  intros Hin. apply in_split in Hin as (pre & post & Htr).
  destruct (thread_view env rt opts _ _ _ _ _ Htr) as (Hle & (rest & Hr) & _).
  split; [done|]. rewrite Hr. apply in_or_app. right. by left.
Qed.

(** An order between two events of [Run] holds in every trace. *)
Lemma main_before P Q sched pre e post :
  before P Q false (events env 0 (Run rt opts)) = true ->
  tr sched = pre ++ (0, e) :: post -> Q e = true ->
  exists y, In (0, y) pre /\ P y = true.
Proof.
  intros Hb Htr HQ.
  destruct (thread_view env rt opts _ _ _ _ _ Htr) as (_ & (rest & Hr) & _).
  destruct (before_exists _ _ _ _ _ _ Hb Hr HQ) as (y & Hy & HP).
  exists y. by rewrite <- proj_In.
Qed.

(** A test that no event of the two front-end goroutines passes is passed
    by events of goroutine 0 only. *)
Lemma only_main Q sched tid e :
  Q (EvDo NewRouter) = false -> Q (EvDo (RegisterRoutes ZipkinAPI)) = false ->
  (forall m k v, Q (EvDo (Info m k v)) = false) ->
  Q (EvDo (hc_Set StatusInternalServerError)) = false ->
  (forall a h, Q (EvListenAndServe a h) = false) ->
  (forall a r, Q (EvServeReturned a r) = false) ->
  (forall m x, Q (EvFatal m x) = false) ->
  In (tid, e) (tr sched) -> Q e = true -> tid = 0.
Proof.
  intros H1 H2 H3 H4 H5 H6 H7 Hin HQ.
  destruct (entry_in_code _ _ _ Hin) as [Hle He].
  apply in_split in He as (l1 & l2 & Heq).
  destruct tid as [|[|[|tid]]]; [done| | |lia].
  - rewrite (none_sound Q _ _ _ _ (events_zipkin_none env rt opts Q H1 H2 H3 H5 H6 H7) Heq) in HQ.
    done.
  - rewrite (none_sound Q _ _ _ _ (events_primary_none env rt opts Q H4 H5 H6 H7) Heq) in HQ.
    done.
Qed.

Lemma bound_address e :
  In e (events env 0 (Run rt opts)) -> is_bound e = true ->
  e = EvCall (net_Listen "tcp" (":" +:+ Itoa (CollectorPort opts))) None.
Proof.
  unfold Run. simpl. oracle; intros H Hb; elements H.
Qed.

Lemma ready_after_bound :
  before is_bound is_ready false (events env 0 (Run rt opts)) = true.
Proof. unfold Run. simpl. by oracle. Qed.

End Properties.

(** C3: in every run the transport listener is bound, by a net.Listen that
    returned no error, before the health check is told Ready; readiness is
    signalled by goroutine 0 only. *)
Theorem ready_after_transport_bind env rt opts sched pre tid post :
  trace (run env rt opts sched) = pre ++ (tid, EvDo hc_Ready) :: post ->
  tid = 0 /\
  In (0, EvCall (net_Listen "tcp" (":" +:+ Itoa (CollectorPort opts))) None) pre.
Proof.
  intros Htr.
  assert (tid = 0) as ->.
  { apply (only_main env rt opts is_ready sched tid (EvDo hc_Ready)); try done.
    rewrite Htr. apply in_or_app. right. by left. }
  split; [done|].
  destruct (main_before env rt opts is_bound is_ready _ _ _ _
    (ready_after_bound env rt opts) Htr eq_refl) as (y & Hin & Hy).
  assert (Hy' : In (0, y) (trace (run env rt opts sched))).
  { rewrite Htr. apply in_or_app. by left. }
  destruct (entry_in_code env rt opts _ _ _ Hy') as [_ Hc].
  by rewrite <- (bound_address env rt opts y Hc Hy).
Qed.

Lemma ready_after_transport_bind_witness :
  0 = 0 /\
  In (0, EvCall (net_Listen "tcp" ":14267") None)
     (take 15 (trace (run env_ok routes_demo opts_default (main_only 16)))).
Proof.
  apply (ready_after_transport_bind env_ok routes_demo opts_default (main_only 16)
           _ 0 []).
  reflexivity.
Defined.

(** ** Failure of a start-up call *)

Lemma events_fatal_inv env tid p msg err rest :
  events env tid p = EvFatal msg err :: rest -> p = Fatal msg err.
Proof.
  destruct p; simpl; try done.
  - by intros [= -> ->].
  - by destruct (serve_returns env tid addr).
Qed.

Lemma spawned_nil tr :
  (forall t e, In (t, e) tr -> is_go e = false) -> spawned tr = [].
Proof.
  induction tr as [|[t e] tr IH]; intros H; [done|].
  change (spawned ((t, e) :: tr)) with (children e ++ spawned tr).
  rewrite IH by (intros t' e' Hin; apply (H t' e'); by right).
  specialize (H t e (or_introl eq_refl)). by destruct e.
Qed.

Lemma all_main_map tr :
  (forall t e, In (t, e) tr -> t = 0) -> tr = map (pair 0) (proj 0 tr).
Proof.
  induction tr as [|[t e] tr IH]; intros H; [done|].
  rewrite (H t e (or_introl eq_refl)), proj_cons_eq. simpl. f_equal.
  apply IH. intros t' e' Hin. apply (H t' e'). by right.
Qed.

Lemma trace_extends env st sched :
  exists l, trace (run_from env st sched) = trace st ++ l.
Proof.
  induction sched as [|t sched [l IH]] using rev_ind.
  { exists []. by rewrite app_nil_r. }
  rewrite run_from_snoc.
  destruct (step_moved env (run_from env st sched) t); simpl; rewrite IH.
  - eauto.
  - eauto.
  - eexists. by rewrite <- app_assoc.
  - eexists. by rewrite <- app_assoc.
Qed.

(** A process whose only goroutine stands before logger.Fatal exits with
    code 1 as soon as that goroutine is scheduled; no other tick changes
    the state. *)
Lemma solo_fatal env st msg err sched :
  threads st = [Fatal msg err] -> exited st = None ->
  In (RunThread 0) sched ->
  run_from env st sched = exit 1 (emit env 0 (EvFatal msg err) Ret st).
Proof.
  intros Hthr Hex. induction sched as [|t sched IH]; [done|].
  intros Hin. simpl.
  destruct t as [[|tid]|].
  - unfold step. rewrite Hex. unfold step_thread. rewrite Hthr. simpl.
    by apply run_from_exited with (c := 1%Z).
  - unfold step. rewrite Hex. unfold step_thread. rewrite Hthr. simpl.
    apply IH. by destruct Hin.
  - unfold step. rewrite Hex. unfold step_signal. rewrite Hthr. simpl.
    apply IH. by destruct Hin.
Qed.

Section Failure.
Context (env : Env) (rt : Routes) (opts : CollectorOptions).

Abbreviation tr sched := (trace (run env rt opts sched)).
Abbreviation main := (events env 0 (Run rt opts)).

(** When a start-up call fails, [Run] does nothing after it but log fatal,
    and did nothing before it but quiet steps. *)
Lemma Run_failure c err :
  In (EvCall c (Some err)) main ->
  exists l msg,
    main = l ++ [EvCall c (Some err); EvFatal msg err] /\
    forallb quiet l = true.
Proof.
  intros Hin.
  assert (H : exists msg,
    drop (length main - 2) main = [EvCall c (Some err); EvFatal msg err] /\
    forallb quiet (take (length main - 2) main) = true).
  { revert Hin. unfold Run. simpl. oracle; intros H;
      repeat (destruct H as [H|H]; [try discriminate H|]); try (by destruct H);
      injection H as <- <-; by eexists. }
  destruct H as (msg & Hd & Hq).
  exists (take (length main - 2) main), msg. split; [|done].
  etrans; [symmetry; apply (take_drop (length main - 2))|]. by f_equal.
Qed.

Lemma count_failed_call : count is_failed_call main <= 1.
Proof. unfold Run. simpl. oracle; lia. Qed.

Lemma quiet_In l e : forallb quiet l = true -> In e l -> quiet e = true.
Proof. intros H. by apply forallb_forall. Qed.

Lemma failure_solo sched c err t e :
  In (EvCall c (Some err)) main -> In (t, e) (tr sched) ->
  t = 0 /\ (quiet e = true \/ is_failed_call e = true \/ is_fatal e = true).
Proof.
  intros Hf Hin. destruct (Run_failure _ _ Hf) as (l & msg & Hm & Hq).
  assert (Hmain : forall x, In x main ->
    quiet x = true \/ is_failed_call x = true \/ is_fatal x = true).
  { intros x. rewrite Hm. intros Hx. apply in_app_or in Hx as [Hx|Hx].
    - left. by eapply quiet_In.
    - destruct Hx as [<-|[<-|[]]]; auto. }
  apply in_split in Hin as (pre & post & Htr).
  destruct (thread_view env rt opts _ _ _ _ _ Htr) as (_ & (rest & Hr) & Hgo).
  destruct (decide (t = 0)) as [->|Hne].
  - split; [done|]. apply Hmain.
    change (In e (events env 0 (code rt opts 0))). rewrite Hr.
    apply in_or_app. right. by left.
  - exfalso. specialize (Hgo Hne).
    assert (Hin : In (0, EvGo (code rt opts t)) (tr sched)).
    { rewrite Htr. apply in_or_app. by left. }
    apply (entry_in_code env rt opts) in Hin as [_ Hin].
    destruct (Hmain _ Hin) as [H|[H|H]]; done.
Qed.

(** The state of a run in which a start-up call has failed: goroutine 0 is
    alone, and either it has logged fatal and the process has exited with
    code 1, or logger.Fatal is its next step. *)
Lemma failure_state sched tid c err :
  In (tid, EvCall c (Some err)) (tr sched) ->
  let st := run env rt opts sched in
  exists l msg,
    main = l ++ [EvCall c (Some err); EvFatal msg err] /\
    forallb quiet l = true /\
    ((exited st = Some 1%Z /\ trace st = map (pair 0) main) \/
     (exited st = None /\ threads st = [Fatal msg err] /\
      trace st = map (pair 0) (l ++ [EvCall c (Some err)]))).
Proof.
  intros Hin st. fold st in Hin.
  assert (Hsolo : forall t e, In (t, e) (trace st) ->
    In (EvCall c (Some err)) main ->
    t = 0 /\ (quiet e = true \/ is_failed_call e = true \/ is_fatal e = true)).
  { intros t e He Hc. by eapply failure_solo. }
  assert (Hc : In (EvCall c (Some err)) main /\ tid = 0).
  { destruct (entry_in_code env rt opts _ _ _ Hin) as [_ Hc].
    split; [|eapply (only_main env rt opts is_call); by eauto].
    assert (tid = 0) as -> by (eapply (only_main env rt opts is_call); by eauto).
    done. }
  destruct Hc as [Hc ->].
  destruct (Run_failure _ _ Hc) as (l & msg & Hm & Hq).
  exists l, msg. split; [done|]. split; [done|].
  pose proof (run_inv env (Run rt opts) sched) as [Hlen Hthr _ _ _ Hfatal Hexit].
  fold (run env rt opts sched) in *. fold st in Hlen, Hthr, Hfatal, Hexit.
  assert (Hall : trace st = map (pair 0) (proj 0 (trace st))).
  { apply all_main_map. intros t e He. by destruct (Hsolo _ _ He Hc). }
  assert (Hsp : spawned (trace st) = []).
  { apply spawned_nil. intros t e He.
    destruct (Hsolo _ _ He Hc) as [_ [H|[H|H]]].
    - unfold quiet in H. apply negb_true_iff in H.
      by repeat (apply orb_false_elim in H as [H _]).
    - by destruct e.
    - by destruct e. }
  rewrite Hsp in Hlen, Hthr. simpl in Hlen.
  destruct (threads st) as [|p [|q ths]] eqn:Hths; simpl in Hlen; try lia.
  specialize (Hthr 0 p (Run rt opts) eq_refl eq_refl).
  apply proj_In in Hin. apply in_split in Hin as (l1 & l2 & Hp).
  rewrite Hp, <- app_assoc in Hthr. simpl in Hthr. fold main in Hthr.
  symmetry in Hthr.
  destruct (split_unique is_failed_call _ _ _ _ _ _ _ count_failed_call Hm Hthr)
    as (<- & _ & Hrest); [done..|].
  destruct l2 as [|x l2].
  - simpl in Hrest. symmetry in Hrest. apply events_fatal_inv in Hrest as ->.
    right. split; [|split; [done|by rewrite Hall, Hp]].
    destruct (exited st) as [code|] eqn:Hex; [|done].
    destruct (Hexit _ eq_refl) as [[_ (t & m & x & Hf)]|[_ H0]]; [|done].
    exfalso. destruct (Hsolo _ _ Hf Hc) as [-> _].
    apply proj_In in Hf. rewrite Hp in Hf.
    apply in_app_or in Hf as [Hf|[Hf|[]]]; [|done].
    apply (quiet_In _ _ Hq) in Hf. done.
  - injection Hrest as <- Hrest.
    assert (Hf : In (0, EvFatal msg err) (trace st)).
    { apply proj_In. rewrite Hp. apply in_or_app. right. right. by left. }
    left. split; [by eapply Hfatal|].
    destruct l2; [|by destruct l2].
    rewrite Hall, Hp, Hm. done.
Qed.

(** After a failed start-up call, the next step of goroutine 0 ends the
    process: it logs fatal and exits with code 1. *)
Lemma failure_exits sched tid c err sched' :
  In (tid, EvCall c (Some err)) (tr sched) ->
  In (RunThread 0) sched' ->
  let st' := run env rt opts (sched ++ sched') in
  exited st' = Some 1%Z /\ trace st' = map (pair 0) main.
Proof.
  intros Hin Hs'. cbv zeta. unfold run. rewrite run_from_app.
  fold (run env rt opts sched).
  destruct (failure_state _ _ _ _ Hin) as (l & msg & Hm & _ & [[Hex Htr]|(Hex & Hthr & Htr)]).
  - by rewrite (run_from_exited env _ _ _ Hex).
  - rewrite (solo_fatal env _ _ _ _ Hthr Hex Hs'). unfold exit, emit.
    cbn [trace exited]. split; [done|].
    rewrite Htr, Hm, !map_app. by rewrite <- app_assoc.
Qed.

Lemma trace_monotone sched sched' x :
  In x (tr sched) -> In x (tr (sched ++ sched')).
Proof.
  intros Hin. unfold run. rewrite run_from_app.
  destruct (trace_extends env (run_from env (init (Run rt opts)) sched) sched') as [l ->].
  apply in_or_app. by left.
Qed.

End Failure.

Section StartupFailures.
Context (env : Env) (rt : Routes) (opts : CollectorOptions).

Abbreviation main := (events env 0 (Run rt opts)).

Lemma Run_listen_failed network addr err :
  In (EvCall (net_Listen network addr) (Some err)) main ->
  network = "tcp" /\ addr = ":" +:+ Itoa (CollectorPort opts) /\
  main = (before_listen opts ++ [EvCall (net_Listen network addr) (Some err)]) ++
         [EvFatal "Unable to start listening on channel" err].
Proof.
  unfold Run, before_listen, health_served. simpl. oracle; intros H;
    repeat (destruct H as [H|H]; [try discriminate H|]); try (by destruct H).
  by injection H as <- <- <-.
Qed.

Lemma Run_health_failed err :
  answer env (healthcheck_Serve StatusServiceUnavailable
                (CollectorHealthCheckHTTPPort opts)) = Some err ->
  main = [EvCall (healthcheck_Serve StatusServiceUnavailable
                    (CollectorHealthCheckHTTPPort opts)) (Some err);
          EvFatal "Could not start the health check server." err].
Proof. intros H. unfold Run. simpl. by rewrite H. Qed.

(** The first entry of a trace is the call of healthcheck.Serve. *)
Lemma first_entry sched x rest :
  trace (run env rt opts sched) = x :: rest ->
  exists r, x = (0, EvCall (healthcheck_Serve StatusServiceUnavailable
                              (CollectorHealthCheckHTTPPort opts)) r).
Proof.
  destruct x as [tid e]. intros Htr.
  destruct (thread_view env rt opts sched [] tid e rest Htr) as (_ & (l & Hl) & Hgo).
  destruct (decide (tid = 0)) as [->|Hne]; [|by destruct (Hgo Hne)].
  unfold code, Run in Hl. simpl in Hl. injection Hl as <- _. eauto.
Qed.

(** A process whose only goroutine stands before a start-up call makes the
    call as soon as that goroutine is scheduled. *)
Lemma solo_try st c k sched :
  threads st = [Try c k] -> exited st = None -> In (RunThread 0) sched ->
  exists sched',
    run_from env st sched =
    run_from env (emit env 0 (EvCall c (answer env c)) (k (answer env c)) st) sched'.
Proof.
  intros Hthr Hex. induction sched as [|t sched IH]; [done|].
  intros Hin. simpl.
  destruct t as [[|tid]|].
  - exists sched. unfold step. rewrite Hex. unfold step_thread. by rewrite Hthr.
  - unfold step. rewrite Hex. unfold step_thread. rewrite Hthr. simpl.
    apply IH. by destruct Hin.
  - unfold step. rewrite Hex. unfold step_signal. rewrite Hthr. simpl.
    apply IH. by destruct Hin.
Qed.

Lemma first_step sched :
  In (RunThread 0) sched ->
  In (0, EvCall (healthcheck_Serve StatusServiceUnavailable
                   (CollectorHealthCheckHTTPPort opts))
                (answer env (healthcheck_Serve StatusServiceUnavailable
                   (CollectorHealthCheckHTTPPort opts))))
     (trace (run env rt opts sched)).
Proof.
  intros Hin. unfold run.
  destruct (solo_try (init (Run rt opts)) _ _ sched eq_refl eq_refl Hin) as [s' ->].
  match goal with |- In _ (trace (run_from env ?st s')) =>
    destruct (trace_extends env st s') as [l ->] end.
  simpl. by left.
Qed.

End StartupFailures.

(** The start-up calls are made by goroutine 0. *)
Lemma call_by_main env rt opts sched tid c r :
  In (tid, EvCall c r) (trace (run env rt opts sched)) ->
  tid = 0 /\ In (EvCall c r) (events env 0 (Run rt opts)).
Proof.
  intros Hin.
  assert (tid = 0) as -> by (eapply (only_main env rt opts is_call); by eauto).
  split; [done|]. by destruct (entry_in_code env rt opts _ _ _ Hin).
Qed.

(** C6: once net.Listen on the RPC port has returned an error, in every
    continuation of the run no goroutine is launched, no HTTP front-end
    listens, readiness is never signalled and the health status stays
    Unavailable; the process is running or has exited with code 1, and it
    has logged fatal and exited with code 1 as soon as goroutine 0 has been
    scheduled once more. *)
Theorem transport_bind_failure env rt opts sched tid network addr err sched' :
  In (tid, EvCall (net_Listen network addr) (Some err))
     (trace (run env rt opts sched)) ->
  let st := run env rt opts (sched ++ sched') in
  (forall t e, In (t, e) (trace st) ->
     t = 0 /\ is_go e = false /\ is_listen_and_serve e = false /\
     is_ready e = false) /\
  length (threads st) = 1 /\
  health st = Some StatusServiceUnavailable /\
  (exited st = None \/ exited st = Some 1%Z) /\
  (In (RunThread 0) sched' ->
     exited st = Some 1%Z /\
     In (0, EvFatal "Unable to start listening on channel" err) (trace st)).
Proof.
  intros Hin st.
  assert (Hin' : In (tid, EvCall (net_Listen network addr) (Some err)) (trace st)).
  { by apply trace_monotone. }
  destruct (call_by_main env rt opts _ _ _ _ Hin) as [-> Hc].
  destruct (Run_listen_failed env rt opts _ _ _ Hc) as (-> & -> & Hmain).
  destruct (failure_state env rt opts _ _ _ _ Hin') as (l & msg & Hm & _ & Hst).
  fold st in Hst. rewrite Hmain in Hm.
  change (l ++ [?a; ?b]) with (l ++ [a] ++ [b]) in Hm. rewrite app_assoc in Hm.
  apply app_inj_tail in Hm as [Hm [= <-]]. apply app_inj_tail in Hm as [<- _].
  pose proof (run_inv env (Run rt opts) (sched ++ sched')) as [Hlen _ _ _ Hh _ _].
  fold (run env rt opts (sched ++ sched')) in Hlen, Hh. fold st in Hlen, Hh.
  assert (Htr : trace st = map (pair 0) (events env 0 (Run rt opts)) \/
                trace st = map (pair 0) (before_listen opts ++
                  [EvCall (net_Listen "tcp" (":" +:+ Itoa (CollectorPort opts))) (Some err)])).
  { destruct Hst as [[_ H]|(_ & _ & H)]; auto. }
  rewrite Hmain in Htr.
  split; [|split; [|split; [|split]]].
  - intros t e He.
    destruct Htr as [Htr|Htr]; rewrite Htr in He; simpl in He;
      repeat (destruct He as [[= <- <-]|He]; [done|]); done.
  - rewrite Hlen. by destruct Htr as [Htr|Htr]; rewrite Htr.
  - rewrite Hh. by destruct Htr as [Htr|Htr]; rewrite Htr.
  - destruct Hst as [[H _]|[H _]]; auto.
  - intros Hs. destruct (failure_exits env rt opts _ _ _ _ _ Hin Hs) as [Hex Ht].
    fold st in Hex, Ht. split; [done|]. rewrite Ht, Hmain.
    rewrite map_app. apply in_or_app. right. by left.
Qed.

Lemma transport_bind_failure_witness :
  let st := run env_bind_fails routes_demo opts_default (main_only 8 ++ [RunThread 0]) in
  In (0, EvCall (net_Listen "tcp" ":14267") (Some "bind: address already in use"))
     (trace (run env_bind_fails routes_demo opts_default (main_only 8))) /\
  length (threads st) = 1 /\
  health st = Some StatusServiceUnavailable /\
  exited st = Some 1%Z /\
  In (0, EvFatal "Unable to start listening on channel" "bind: address already in use")
     (trace st).
Proof.
  assert (H : In (0, EvCall (net_Listen "tcp" ":14267") (Some "bind: address already in use"))
     (trace (run env_bind_fails routes_demo opts_default (main_only 8)))).
  { vm_compute. do 7 right. by left. }
  destruct (transport_bind_failure env_bind_fails routes_demo opts_default
    (main_only 8) 0 "tcp" ":14267" "bind: address already in use" [RunThread 0] H)
    as (_ & Hlen & Hh & _ & Hex).
  destruct (Hex (or_introl eq_refl)) as [Hex1 Hex2].
  repeat split; assumption.
Defined.

(** C7: when healthcheck.Serve returns an error, a run calls nothing but
    healthcheck.Serve and logger.Fatal: the span handler builder, the
    TChannel, the transport listener and the HTTP front-ends are never
    created, no goroutine is launched and there is no health status; the
    process has exited with code 1 once goroutine 0 has been scheduled
    twice. *)
Theorem health_server_failure env rt opts err :
  answer env (healthcheck_Serve StatusServiceUnavailable
                (CollectorHealthCheckHTTPPort opts)) = Some err ->
  let failed := (0, EvCall (healthcheck_Serve StatusServiceUnavailable
                              (CollectorHealthCheckHTTPPort opts)) (Some err)) in
  let fatal := (0, EvFatal "Could not start the health check server." err) in
  (forall sched, let st := run env rt opts sched in
     (trace st = [] \/ trace st = [failed] \/
      (trace st = [failed; fatal] /\ exited st = Some 1%Z)) /\
     length (threads st) = 1 /\ health st = None) /\
  (forall s1 s2, In (RunThread 0) s1 -> In (RunThread 0) s2 ->
     let st := run env rt opts (s1 ++ s2) in
     trace st = [failed; fatal] /\ exited st = Some 1%Z).
Proof.
  intros Hans failed fatal.
  pose proof (Run_health_failed env rt opts err Hans) as Hmain.
  split.
  - intros sched st.
    pose proof (run_inv env (Run rt opts) sched) as [Hlen _ _ _ Hh _ _].
    fold (run env rt opts sched) in Hlen, Hh. fold st in Hlen, Hh.
    assert (Htr : trace st = [] \/ trace st = [failed] \/
      (trace st = [failed; fatal] /\ exited st = Some 1%Z)).
    { destruct (trace st) as [|x rest] eqn:Htr; [by left|right].
      destruct (first_entry env rt opts _ _ _ Htr) as [r ->].
      assert (Hin : In (0, EvCall (healthcheck_Serve StatusServiceUnavailable
                (CollectorHealthCheckHTTPPort opts)) r) (trace st)).
      { rewrite Htr. by left. }
      destruct (call_by_main env rt opts _ _ _ _ Hin) as [_ Hc].
      rewrite Hmain in Hc. destruct Hc as [[= <-]|[Hc|[]]]; [|done].
      destruct (failure_state env rt opts _ _ _ _ Hin) as (l & msg & Hm & _ & Hst).
      fold st in Hst. rewrite Hmain in Hm, Hst.
      destruct l as [|y l]; [|by destruct l as [|z [|? ?]]].
      injection Hm as <-. rewrite Htr in Hst.
      destruct Hst as [[Hex H]|(_ & _ & H)]; [right|left]; done. }
    split; [done|]. split.
    + rewrite Hlen. by destruct Htr as [->|[->|[-> _]]].
    + rewrite Hh. by destruct Htr as [->|[->|[-> _]]].
  - intros s1 s2 H1 H2 st.
    pose proof (first_step env rt opts s1 H1) as Hin. rewrite Hans in Hin.
    destruct (failure_exits env rt opts _ _ _ _ _ Hin H2) as [Hex Ht].
    fold st in Hex, Ht. split; [|done]. by rewrite Ht, Hmain.
Qed.

Lemma health_server_failure_witness :
  let st := run env_health_fails routes_demo opts_default [RunThread 0; RunThread 0] in
  answer env_health_fails (healthcheck_Serve StatusServiceUnavailable 14269) =
    Some "bind: address already in use" /\
  trace st =
    [(0, EvCall (healthcheck_Serve StatusServiceUnavailable 14269)
           (Some "bind: address already in use"));
     (0, EvFatal "Could not start the health check server."
           "bind: address already in use")] /\
  exited st = Some 1%Z /\
  length (threads st) = 1 /\ health st = None.
Proof.
  destruct (health_server_failure env_health_fails routes_demo opts_default
    "bind: address already in use" eq_refl) as [Hsafe Hlive].
  destruct (Hlive [RunThread 0] [RunThread 0] (or_introl eq_refl) (or_introl eq_refl))
    as [Htr Hex].
  destruct (Hsafe [RunThread 0; RunThread 0]) as (_ & Hlen & Hh).
  repeat split; assumption.
Defined.

(** ** The two HTTP front-ends *)

Section Frontends.
Context (env : Env) (rt : Routes) (opts : CollectorOptions).

Abbreviation tr sched := (trace (run env rt opts sched)).
Abbreviation main := (events env 0 (Run rt opts)).

Lemma go_by_main sched t c : In (t, EvGo c) (tr sched) -> t = 0.
Proof.
  intros Hin. destruct (entry_in_code env rt opts _ _ _ Hin) as [_ Hc].
  apply in_split in Hc as (l1 & l2 & Hc).
  destruct (decide (t = 0)) as [|Hne]; [done|]. by apply code_no_go in Hc.
Qed.

(** The first launch is the Zipkin front-end, the second launch is the
    primary front-end, and there is no third. *)
Lemma go_entry sched pre t c post :
  tr sched = pre ++ (t, EvGo c) :: post ->
  t = 0 /\ length (spawned pre) < 2 /\ c = code rt opts (S (length (spawned pre))).
Proof.
  intros Htr.
  assert (t = 0) as ->.
  { apply (go_by_main sched t c). rewrite Htr. apply in_or_app. right. by left. }
  split; [done|].
  destruct (thread_view env rt opts _ _ _ _ _ Htr) as (_ & (rest & Hr) & _).
  assert (Hsp : spawned pre = launches (proj 0 pre)).
  { apply spawned_main. intros t c' Hin. apply (go_by_main sched t c').
    rewrite Htr. apply in_or_app. by left. }
  assert (Hl : launches main = spawned pre ++ c :: launches rest).
  { change main with (events env 0 (code rt opts 0)).
    by rewrite Hr, launches_app, Hsp. }
  destruct (launches_Run env rt opts) as [H0|H0]; rewrite H0 in Hl.
  - by destruct (spawned pre).
  - destruct (spawned pre) as [|x [|y [|z l]]]; simpl in *.
    + injection Hl as <- _. split; [lia|done].
    + injection Hl as _ <- _. split; [lia|done].
    + by injection Hl.
    + by injection Hl.
Qed.

Lemma spawned_code sched i c :
  spawned (tr sched) !! i = Some c -> i < 2 /\ c = code rt opts (S i).
Proof.
  intros H. destruct (spawned_lookup _ _ _ H) as (pre & t & post & Htr & <-).
  by destruct (go_entry _ _ _ _ _ Htr) as (_ & ? & ?).
Qed.

(** A goroutine that has done nothing yet still has the code it was
    launched with. *)
Lemma fresh_thread sched tid p :
  threads (run env rt opts sched) !! tid = Some p ->
  proj tid (tr sched) = [] ->
  p = code rt opts tid.
Proof.
  intros Hp Hnil.
  pose proof (run_inv env (Run rt opts) sched) as [Hlen _ _ Hfresh _ _ _].
  fold (run env rt opts sched) in Hlen, Hfresh.
  destruct tid as [|i].
  - by apply (Hfresh 0 p (Run rt opts)).
  - destruct (spawned (tr sched) !! i) as [pi|] eqn:Hpi.
    + destruct (spawned_code _ _ _ Hpi) as [_ ->]. by apply (Hfresh (S i)).
    + apply lookup_ge_None in Hpi. apply lookup_lt_Some in Hp. lia.
Qed.

(** Every call of http.ListenAndServe is the one of the Zipkin front-end,
    made by goroutine 1 when the Zipkin port is not 0, or the one of the
    primary front-end, made by goroutine 2. *)
Lemma listen_and_serve_entry sched t addr h :
  In (t, EvListenAndServe addr h) (tr sched) ->
  (t = 1 /\ CollectorZipkinHTTPPort opts <> 0%Z /\
   addr = ":" +:+ Itoa (CollectorZipkinHTTPPort opts) /\
   h = NewRecoveryHandler true (zipkinRoutes rt)) \/
  (t = 2 /\ addr = ":" +:+ Itoa (CollectorHTTPPort opts) /\
   h = NewRecoveryHandler true (apiRoutes rt)).
Proof.
  intros Hin. destruct (entry_in_code env rt opts _ _ _ Hin) as [Hle Hc].
  destruct t as [|[|[|t]]]; [| | |lia].
  - exfalso. revert Hc. unfold code, Run. simpl.
    oracle; intros Hx; repeat (destruct Hx as [Hx|Hx]; [done|]); done.
  - left. revert Hc. unfold code, startZipkinHTTPAPI.
    case_decide as Hz; simpl; [|done].
    oracle; intros Hx; repeat (destruct Hx as [Hx|Hx]; [try done|]); try done;
      by injection Hx as <- <-.
  - right. revert Hc. unfold code, primaryHTTP. simpl.
    oracle; intros Hx; repeat (destruct Hx as [Hx|Hx]; [try done|]); try done;
      by injection Hx as <- <-.
Qed.

(** The events of the front-end goroutines that build a router or mount
    routes. *)
Lemma router_entry sched t e :
  In (t, e) (tr sched) ->
  e = EvDo NewRouter \/ (exists api, e = EvDo (RegisterRoutes api)) ->
  (t = 0 /\ (e = EvDo NewRouter \/ e = EvDo (RegisterRoutes JaegerAPI))) \/
  (t = 1 /\ CollectorZipkinHTTPPort opts <> 0%Z).
Proof.
  intros Hin He. destruct (entry_in_code env rt opts _ _ _ Hin) as [Hle Hc].
  destruct t as [|[|[|t]]]; [| | |lia].
  - left. split; [done|]. revert Hc. unfold code, Run. simpl.
    destruct He as [->|[api ->]]; [by left|].
    oracle; intros Hx; repeat (destruct Hx as [Hx|Hx]; [try done|]); try done;
      injection Hx as <-; by right.
  - right. split; [done|]. revert Hc. unfold code, startZipkinHTTPAPI.
    by case_decide as Hz.
  - exfalso. revert Hc. unfold code, primaryHTTP. simpl.
    destruct He as [->|[api ->]];
      oracle; intros Hx; repeat (destruct Hx as [Hx|Hx]; [done|]); done.
Qed.

End Frontends.

Lemma proj_nil tid tr : (forall e, ~ In (tid, e) tr) -> proj tid tr = [].
Proof.
  intros H. destruct (proj tid tr) as [|e l] eqn:Hp; [done|].
  destruct (H e). apply proj_In. rewrite Hp. by left.
Qed.

(** C5: with the Zipkin HTTP port set to 0, goroutine 1, which was launched
    with startZipkinHTTPAPI, does nothing in any run: it stays at the end
    of its code.  Every http.ListenAndServe of the trace is the one of the
    primary front-end, the only router built is the one goroutine 0 builds
    for the primary front-end, and the Zipkin routes are never
    registered. *)
Theorem zipkin_port_zero env rt opts sched :
  CollectorZipkinHTTPPort opts = 0%Z ->
  let st := run env rt opts sched in
  (forall t e, In (t, e) (trace st) ->
     t <> 1 /\
     (forall addr h, e = EvListenAndServe addr h ->
        t = 2 /\ addr = ":" +:+ Itoa (CollectorHTTPPort opts) /\
        h = NewRecoveryHandler true (apiRoutes rt)) /\
     (e = EvDo NewRouter -> t = 0) /\
     e <> EvDo (RegisterRoutes ZipkinAPI)) /\
  (forall p, threads st !! 1 = Some p -> p = Ret).
Proof.
  intros Hz st.
  assert (Hcode : code rt opts 1 = Ret).
  { unfold code, startZipkinHTTPAPI. by rewrite Hz. }
  assert (H1 : forall e, ~ In (1, e) (trace st)).
  { intros e Hin. destruct (entry_in_code env rt opts _ _ _ Hin) as [_ Hc].
    by rewrite Hcode in Hc. }
  split.
  - intros t e Hin. split; [|split; [|split]].
    + intros ->. by apply (H1 e).
    + intros addr h ->.
      by destruct (listen_and_serve_entry env rt opts _ _ _ _ Hin)
        as [(_ & Hne & _)|(? & ? & ?)].
    + intros ->.
      by destruct (router_entry env rt opts _ _ _ Hin (or_introl eq_refl))
        as [[? _]|[_ Hne]].
    + intros ->.
      by destruct (router_entry env rt opts _ _ _ Hin
                     (or_intror (ex_intro _ ZipkinAPI eq_refl)))
        as [[_ [?|?]]|[_ Hne]].
  - intros p Hp. rewrite <- Hcode.
    apply (fresh_thread env rt opts sched 1 p Hp). by apply proj_nil.
Qed.

Lemma zipkin_port_zero_witness :
  CollectorZipkinHTTPPort opts_no_zipkin = 0%Z /\
  let st := run env_ok routes_demo opts_no_zipkin
              (main_only 16 ++ [RunThread 1; RunThread 2; RunThread 1]) in
  (forall t e, In (t, e) (trace st) ->
     t <> 1 /\
     (forall addr h, e = EvListenAndServe addr h ->
        t = 2 /\ addr = ":" +:+ Itoa (CollectorHTTPPort opts_no_zipkin) /\
        h = NewRecoveryHandler true (apiRoutes routes_demo)) /\
     (e = EvDo NewRouter -> t = 0) /\
     e <> EvDo (RegisterRoutes ZipkinAPI)) /\
  (forall p, threads st !! 1 = Some p -> p = Ret).
Proof.
  split; [reflexivity|].
  apply (zipkin_port_zero env_ok routes_demo opts_no_zipkin). reflexivity.
Defined.

Lemma serve_recovered printStack inner reqs :
  serveRequests (NewRecoveryHandler printStack inner) reqs =
  {| responses := map (fun req => (req, recovered_status inner req)) reqs;
     server_log := flat_map (recovered_log printStack inner) reqs;
     listening := true |}.
Proof.
  induction reqs as [|req reqs IH]; [done|].
  simpl. rewrite IH. unfold NewRecoveryHandler, recovered_status, recovered_log.
  destruct (inner req) as [logs [s|f]]; simpl; [by rewrite app_nil_r|done].
Qed.

(** Without the middleware a fault ends the serving loop. *)
Lemma unrecovered_fault_stops inner req f rest :
  (inner req).2 = Faulted f ->
  listening (serveRequests inner (req :: rest)) = false.
Proof. simpl. destruct (inner req) as [logs o]. simpl. by intros ->. Qed.

(** C9: every handler that is passed to http.ListenAndServe, on either
    front-end, is a router wrapped by the recovery middleware with stack
    traces switched on.  Whatever requests arrive, each receives exactly
    one response, a request whose handler faults receives HTTP 500 and its
    fault is logged with a stack trace, and the listener is still serving
    after the last of them. *)
Theorem handlers_recover env rt opts sched t addr h :
  In (t, EvListenAndServe addr h) (trace (run env rt opts sched)) ->
  exists inner,
    h = NewRecoveryHandler true inner /\
    (inner = apiRoutes rt \/ inner = zipkinRoutes rt) /\
    forall reqs,
      let r := serveRequests h reqs in
      listening r = true /\
      responses r = map (fun req => (req, recovered_status inner req)) reqs /\
      server_log r = flat_map (recovered_log true inner) reqs /\
      forall req f, (inner req).2 = Faulted f ->
        recovered_status inner req = StatusInternalServerError /\
        recovered_log true inner req =
          (inner req).1 ++ [{| log_fault := f; log_stack := true |}].
Proof.
  intros Hin.
  assert (Hh : h = NewRecoveryHandler true (zipkinRoutes rt) \/
               h = NewRecoveryHandler true (apiRoutes rt)).
  { destruct (listen_and_serve_entry env rt opts _ _ _ _ Hin)
      as [(_ & _ & _ & ?)|(_ & _ & ?)]; auto. }
  assert (Hgen : forall inner reqs,
    let r := serveRequests (NewRecoveryHandler true inner) reqs in
    listening r = true /\
    responses r = map (fun req => (req, recovered_status inner req)) reqs /\
    server_log r = flat_map (recovered_log true inner) reqs /\
    forall req f, (inner req).2 = Faulted f ->
      recovered_status inner req = StatusInternalServerError /\
      recovered_log true inner req =
        (inner req).1 ++ [{| log_fault := f; log_stack := true |}]).
  { intros inner reqs. cbv zeta. rewrite serve_recovered. simpl.
    repeat split; unfold recovered_status, recovered_log; by rewrite H. }
  destruct Hh as [-> | ->].
  - exists (zipkinRoutes rt). split; [done|]. split; [by right|]. apply Hgen.
  - exists (apiRoutes rt). split; [done|]. split; [by left|]. apply Hgen.
Qed.

Lemma handlers_recover_witness :
  let h := NewRecoveryHandler true (apiRoutes routes_demo) in
  In (2, EvListenAndServe ":14268" h)
     (trace (run env_ok routes_demo opts_default (main_only 16 ++ [RunThread 2]))) /\
  responses (serveRequests h ["/api/traces"; "/debug"; "/api/traces"]) =
    [("/api/traces", 202%Z); ("/debug", 500%Z); ("/api/traces", 202%Z)] /\
  listening (serveRequests h ["/api/traces"; "/debug"; "/api/traces"]) = true.
Proof.
  intros h.
  assert (Hin : In (2, EvListenAndServe ":14268" h)
     (trace (run env_ok routes_demo opts_default (main_only 16 ++ [RunThread 2])))).
  { vm_compute. do 16 right. by left. }
  split; [exact Hin|].
  destruct (handlers_recover env_ok routes_demo opts_default _ 2 ":14268" h Hin)
    as (inner & Hh & _ & Hserve).
  destruct (Hserve ["/api/traces"; "/debug"; "/api/traces"]) as (Hl & Hr & _).
  split; [|exact Hl].
  reflexivity.
Defined.

(** ** The goroutine of the primary HTTP front-end *)

Section Primary.
Context (env : Env) (rt : Routes) (opts : CollectorOptions).

Abbreviation tr sched := (trace (run env rt opts sched)).
Abbreviation primary := (events env 2 (code rt opts 2)).
Abbreviation httpPortStr := (":" +:+ Itoa (CollectorHTTPPort opts)).

(** The current code of a goroutine continues what the goroutine did. *)
Lemma thread_state sched tid p :
  threads (run env rt opts sched) !! tid = Some p ->
  proj tid (tr sched) ++ events env tid p = events env tid (code rt opts tid).
Proof.
  intros Hp.
  pose proof (run_inv env (Run rt opts) sched) as [Hlen Hthr _ _ _ _ _].
  fold (run env rt opts sched) in Hlen, Hthr.
  destruct tid as [|i].
  - by apply (Hthr 0 p (Run rt opts)).
  - destruct (spawned (tr sched) !! i) as [pi|] eqn:Hpi.
    + destruct (spawned_code env rt opts _ _ _ Hpi) as [_ ->]. by apply (Hthr (S i)).
    + apply lookup_ge_None in Hpi. apply lookup_lt_Some in Hp. lia.
Qed.

Lemma thread_exists sched tid e :
  In (tid, e) (tr sched) -> exists p, threads (run env rt opts sched) !! tid = Some p.
Proof.
  intros Hin.
  pose proof (run_inv env (Run rt opts) sched) as [_ _ Hnone _ _ _ _].
  fold (run env rt opts sched) in Hnone.
  destruct (threads (run env rt opts sched) !! tid) as [p|] eqn:Hp; [eauto|].
  apply lookup_ge_None in Hp. apply Hnone in Hp.
  apply proj_In in Hin. by rewrite Hp in Hin.
Qed.

(** hc.Set is called by goroutine 2 only, and with status 500. *)
Lemma set_entry sched t e :
  In (t, e) (tr sched) -> is_set e = true ->
  t = 2 /\ e = EvDo (hc_Set StatusInternalServerError) /\
  before is_returned_nil is_set false primary = true /\
  serve_returns env 2 httpPortStr = Some None.
Proof.
  intros Hin He. destruct (entry_in_code env rt opts _ _ _ Hin) as [Hle Hc].
  destruct t as [|[|[|t]]]; [| | |lia].
  - exfalso. revert Hc. unfold code, Run. simpl.
    oracle; intros Hx; repeat (destruct Hx as [Hx|Hx]; [by subst e|]); done.
  - exfalso. apply in_split in Hc as (l1 & l2 & Hc).
    rewrite (none_sound is_set _ _ _ _
      (events_zipkin_none env rt opts is_set eq_refl eq_refl (fun _ _ _ => eq_refl)
         (fun _ _ => eq_refl) (fun _ _ => eq_refl) (fun _ _ => eq_refl)) Hc) in He.
    done.
  - split; [done|]. revert Hc. unfold code, primaryHTTP. simpl.
    oracle; intros Hx; repeat (destruct Hx as [Hx|Hx]; [try by subst e|]); done.
Qed.

(** What goroutine 2 does when http.ListenAndServe returns an error. *)
Lemma primary_error a err :
  In (EvServeReturned a (Some err)) primary ->
  a = httpPortStr /\
  primary = [EvListenAndServe httpPortStr (NewRecoveryHandler true (apiRoutes rt));
             EvServeReturned httpPortStr (Some err);
             EvFatal "Could not launch service" err].
Proof.
  unfold code, primaryHTTP. simpl.
  oracle; intros Hx; repeat (destruct Hx as [Hx|Hx]; [try done|]); try done.
  by injection Hx as <- <-.
Qed.


(** After an error return goroutine 2 has logged fatal, and the process has
    exited with code 1, or logger.Fatal is its next step. *)
Lemma primary_error_state sched a err :
  In (2, EvServeReturned a (Some err)) (tr sched) ->
  let st := run env rt opts sched in
  (exited st = Some 1%Z /\ In (2, EvFatal "Could not launch service" err) (trace st)) \/
  (threads st !! 2 = Some (Fatal "Could not launch service" err) /\
   ~ In (2, EvFatal "Could not launch service" err) (trace st)).
Proof.
  intros Hin st.
  destruct (entry_in_code env rt opts _ _ _ Hin) as [_ Hc].
  destruct (primary_error _ _ Hc) as [-> Hprim].
  destruct (thread_exists _ _ _ Hin) as [p Hp]. fold st in Hp.
  pose proof (thread_state _ _ _ Hp) as Hst. rewrite Hprim in Hst.
  apply proj_In in Hin. apply in_split in Hin as (l1 & l2 & Hl).
  rewrite Hl, <- app_assoc in Hst. simpl in Hst.
  assert (Hsplit : l1 = [EvListenAndServe httpPortStr (NewRecoveryHandler true (apiRoutes rt))] /\
    l2 ++ events env 2 p = [EvFatal "Could not launch service" err]).
  { destruct l1 as [|x l1]; simplify_eq/=.
    destruct l1 as [|y l1]; simplify_eq/=; [done|].
    destruct l1 as [|z l1]; simplify_eq/=. by destruct l1. }
  destruct Hsplit as [-> Hrest].
  destruct l2 as [|x l2].
  - right. simpl in Hrest. apply events_fatal_inv in Hrest as ->.
    split; [done|]. intros Hf. apply proj_In in Hf. fold st in Hl.
    rewrite Hl in Hf. simpl in Hf. by destruct Hf as [?|[?|[]]].
  - left. injection Hrest as -> Hrest.
    assert (Hf : In (2, EvFatal "Could not launch service" err) (trace st)).
    { apply proj_In. fold st in Hl. rewrite Hl. right. right. by left. }
    split; [|done].
    pose proof (run_inv env (Run rt opts) sched) as [_ _ _ _ _ Hfatal _].
    by eapply Hfatal.
Qed.

End Primary.

Lemma no_set_after_error env rt opts sched a err t e :
  In (2, EvServeReturned a (Some err)) (trace (run env rt opts sched)) ->
  In (t, e) (trace (run env rt opts sched)) -> is_set e = false.
Proof.
  intros Herr Hin. destruct (is_set e) eqn:He; [exfalso|done].
  destruct (set_entry env rt opts _ _ _ Hin He) as (-> & -> & _).
  destruct (entry_in_code env rt opts _ _ _ Herr) as [_ Hc].
  destruct (primary_error env rt opts _ _ Hc) as [_ Hp].
  destruct (entry_in_code env rt opts _ _ _ Hin) as [_ Hs].
  rewrite Hp in Hs. by repeat (destruct Hs as [Hs|Hs]; [done|]).
Qed.


(** C1, as the code has it: when http.ListenAndServe of the primary
    front-end has returned an error, the next step of its goroutine is
    logger.Fatal, which ends the process with exit code 1; that step leaves
    the health status as it was, and the run contains no call of hc.Set. *)
Theorem listen_error_is_fatal env rt opts sched a err :
  let st := run env rt opts sched in
  In (2, EvServeReturned a (Some err)) (trace st) ->
  exited st = None ->
  let st' := step env st (RunThread 2) in
  exited st' = Some 1%Z /\
  trace st' = trace st ++ [(2, EvFatal "Could not launch service" err)] /\
  health st' = health st /\
  (forall t e, In (t, e) (trace st') -> is_set e = false).
Proof.
  intros st Hin Hex st'.
  destruct (primary_error_state env rt opts _ _ _ Hin) as [[H1 _]|[Hp _]].
  { fold st in H1. by rewrite H1 in Hex. }
  fold st in Hp.
  assert (Hst' : st' = exit 1 (emit env 2 (EvFatal "Could not launch service" err) Ret st)).
  { unfold st', step. rewrite Hex. unfold step_thread. by rewrite Hp. }
  split; [by rewrite Hst'|]. split; [by rewrite Hst'|]. split; [by rewrite Hst'|].
  intros t e He. rewrite Hst' in He. simpl in He.
  apply in_app_or in He as [He|[[= <- <-]|[]]]; [|done].
  by eapply no_set_after_error.
Qed.

Lemma listen_error_is_fatal_witness :
  let st := run env_serve_error routes_demo opts_default sched_primary in
  let st' := step env_serve_error st (RunThread 2) in
  In (2, EvServeReturned ":14268" (Some "accept: use of closed network connection"))
     (trace st) /\
  exited st = None /\
  exited st' = Some 1%Z /\
  health st' = health st.
Proof.
  intros st st'.
  assert (Hin : In (2, EvServeReturned ":14268"
                        (Some "accept: use of closed network connection")) (trace st)).
  { vm_compute. do 17 right. by left. }
  assert (Hex : exited st = None) by (vm_compute; reflexivity).
  destruct (listen_error_is_fatal env_serve_error routes_demo opts_default
              sched_primary _ _ Hin Hex) as (H1 & _ & H3 & _).
  split; [exact Hin|]. split; [exact Hex|]. split; [exact H1|exact H3].
Defined.

(** C1 as the specification states it does not hold: here
    http.ListenAndServe of the primary front-end returns an error and the
    process ends fatally with exit code 1, yet hc.Set was never called, and
    the health status at the exit is the Ready code, not 500. *)
Lemma health_write_before_fatal_counterexample :
  let st := run env_serve_error routes_demo opts_default
              (sched_primary ++ [RunThread 2]) in
  In (2, EvServeReturned ":14268" (Some "accept: use of closed network connection"))
     (trace st) /\
  In (2, EvFatal "Could not launch service" "accept: use of closed network connection")
     (trace st) /\
  exited st = Some 1%Z /\
  forallb (fun x => negb (is_set x.2)) (trace st) = true /\
  health st = Some 204%Z /\
  health st <> Some StatusInternalServerError.
Proof.
  vm_compute. split; [do 17 right; by left|]. split; [do 18 right; by left|].
  repeat split. discriminate.
Qed.


(** ** The RPC port and the order of launch and readiness *)

Section Launch.
Context (env : Env) (rt : Routes) (opts : CollectorOptions).

Abbreviation tr sched := (trace (run env rt opts sched)).
Abbreviation main := (events env 0 (Run rt opts)).
Abbreviation portStr := (":" +:+ Itoa (CollectorPort opts)).

Lemma Run_started :
  started env opts ->
  main = before_listen opts ++ after_listen rt opts ++
         [EvDo hc_Ready; EvSignal; EvDo Finishing].
Proof.
  intros (H1 & H2 & H3 & H4). unfold Run. simpl. rewrite H1. simpl.
  rewrite H2. simpl. rewrite H3. simpl. rewrite H4. done.
Qed.

Lemma Run_ready : In (EvDo hc_Ready) main -> started env opts.
Proof.
  unfold started, Run. simpl.
  oracle; intros Hx; repeat (destruct Hx as [Hx|Hx]; [try done|]); done.
Qed.

Lemma count_ready_main : count is_ready main <= 1.
Proof. unfold Run. simpl. oracle; lia. Qed.

Lemma count_fatal_main : count is_fatal main <= 1.
Proof. unfold Run. simpl. oracle; lia. Qed.

Lemma listen_call network addr r :
  In (EvCall (net_Listen network addr) r) main ->
  network = "tcp" /\ addr = portStr /\ r = answer env (net_Listen "tcp" portStr).
Proof.
  unfold Run. simpl.
  oracle; intros Hx; repeat (destruct Hx as [Hx|Hx]; [try done|]); try done;
    by injection Hx as <- <- <-.
Qed.

Lemma listen_fatal err :
  In (EvFatal "Unable to start listening on channel" err) main ->
  In (EvCall (net_Listen "tcp" portStr) (Some err)) main.
Proof.
  unfold Run. simpl.
  oracle; intros Hx; repeat (destruct Hx as [Hx|Hx]; [try done|]); try done.
  injection Hx as <-. do 7 right. by left.
Qed.

Lemma run_from_cons st t sched :
  run_from env st (t :: sched) = run_from env (step env st t) sched.
Proof. done. Qed.

Ltac main_step :=
  rewrite run_from_cons;
  match goal with
  | |- context [step env ?st (RunThread 0)] =>
      let st' := eval cbn in (step env st (RunThread 0)) in
      change (step env st (RunThread 0)) with st'
  end.

(** Goroutine 0 alone, run up to the select with every start-up call
    succeeding: both front-end goroutines are launched and have not moved,
    and the health check reports Ready. *)
Lemma run_main_only_started :
  started env opts ->
  run env rt opts (main_only 16) =
  {| threads := [Recv (Do Finishing Ret); code rt opts 1; code rt opts 2];
     health := Some (StatusReady env);
     trace := map (pair 0) (before_listen opts ++ after_listen rt opts ++ [EvDo hc_Ready]);
     exited := None |}.
Proof.
  intros (H1 & H2 & H3 & H4).
  unfold run, main_only, init, Run. cbn [repeat].
  main_step. rewrite H1.
  main_step. rewrite H2.
  main_step. rewrite H3.
  do 5 main_step. rewrite H4.
  do 8 main_step.
  reflexivity.
Qed.

End Launch.

(** C2 as the specification states it does not hold: with the RPC port 0
    and a net.Listen that succeeds on ":0", as it does when the system
    picks a free port, start-up goes through: the listener is bound,
    readiness is signalled, nothing fatal is logged and the process runs
    on. *)
Lemma rpc_port_zero_counterexample :
  let st := run env_ok routes_demo opts_rpc_port_zero (main_only 16) in
  CollectorPort opts_rpc_port_zero = 0%Z /\
  In (0, EvCall (net_Listen "tcp" ":0") None) (trace st) /\
  In (0, EvDo hc_Ready) (trace st) /\
  forallb (fun x => negb (is_fatal x.2)) (trace st) = true /\
  exited st = None.
Proof.
  vm_compute. split; [done|]. split; [do 7 right; by left|].
  split; [do 15 right; by left|]. done.
Qed.

(** C4: readiness is signalled by goroutine 0, and in the order of its
    steps hc.Ready comes right after the launch of the primary front-end,
    the launch of the Zipkin front-end being earlier.  Nothing makes it
    wait for a front-end: under the same outcomes of the external calls
    there is a run in which Ready has been signalled while neither
    front-end goroutine has taken a step, so that no http.ListenAndServe
    has been called yet. *)
Theorem ready_follows_launches env rt opts sched pre tid post :
  trace (run env rt opts sched) = pre ++ (tid, EvDo hc_Ready) :: post ->
  tid = 0 /\
  (exists earlier,
     proj 0 pre = earlier ++ [launch_primary rt opts] /\
     In (launch_zipkin rt opts) earlier) /\
  (exists sched',
     let st' := run env rt opts sched' in
     In (0, EvDo hc_Ready) (trace st') /\
     health st' = Some (StatusReady env) /\
     (forall t e, In (t, e) (trace st') ->
        t = 0 /\ is_listen_and_serve e = false) /\
     threads st' !! 1 = Some (code rt opts 1) /\
     threads st' !! 2 = Some (code rt opts 2)).
Proof.
  intros Htr.
  assert (Hin : In (tid, EvDo hc_Ready) (trace (run env rt opts sched))).
  { rewrite Htr. apply in_or_app. right. by left. }
  assert (tid = 0) as ->.
  { by apply (only_main env rt opts is_ready sched tid (EvDo hc_Ready)). }
  split; [done|].
  destruct (entry_in_code env rt opts _ _ _ Hin) as [_ Hc].
  pose proof (Run_ready env rt opts Hc) as Hstarted.
  pose proof (Run_started env rt opts Hstarted) as Hmain.
  split.
  - destruct (thread_view env rt opts _ _ _ _ _ Htr) as (_ & (rest & Hr) & _).
    change (code rt opts 0) with (Run rt opts) in Hr.
    rewrite app_assoc in Hmain.
    destruct (split_unique is_ready _ _ _ _ _ _ _
                (count_ready_main env rt opts) Hmain Hr eq_refl eq_refl)
      as (Hpre & _ & _).
    exists (before_listen opts ++ removelast (after_listen rt opts)).
    split.
    + rewrite <- Hpre, <- app_assoc. done.
    + apply in_or_app. right. simpl. do 5 right. by left.
  - exists (main_only 16). rewrite (run_main_only_started env rt opts Hstarted).
    simpl. split; [do 15 right; by left|]. split; [done|]. split; [|done].
    intros t e He. repeat (destruct He as [[= <- <-]|He]; [done|]). done.
Qed.

Lemma ready_follows_launches_witness :
  let st := run env_ok routes_demo opts_default
              (main_only 15 ++ [RunThread 2; RunThread 0]) in
  trace st = take 16 (trace st) ++ (0, EvDo hc_Ready) :: [] /\
  exists earlier,
    proj 0 (take 16 (trace st)) = earlier ++ [launch_primary routes_demo opts_default] /\
    In (launch_zipkin routes_demo opts_default) earlier.
Proof.
  intros st.
  assert (Htr : trace st = take 16 (trace st) ++ (0, EvDo hc_Ready) :: [])
    by reflexivity.
  split; [exact Htr|].
  by destruct (ready_follows_launches env_ok routes_demo opts_default _ _ _ _ Htr)
    as (_ & H & _).
Defined.

(** ** The health status *)


Lemma write_cases env e :
  (health_write env e = None /\ is_health_served e = false /\
   is_ready e = false /\ is_set e = false) \/
  (exists s p, e = EvCall (healthcheck_Serve s p) None) \/
  e = EvDo hc_Ready \/
  (exists s, e = EvDo (hc_Set s)).
Proof.
  destruct e as [[] []|[]| | | | |]; simpl; eauto 10.
Qed.

Section History.
Context (env : Env) (port : Z).

Abbreviation served :=
  (EvCall (healthcheck_Serve StatusServiceUnavailable port) None).
Abbreviation failed := (EvDo (hc_Set StatusInternalServerError)).









End History.


Lemma count_global Q t0 (tr : list (nat * Event)) :
  (forall t e, In (t, e) tr -> Q e = true -> t = t0) ->
  count Q (tr.*2) = count Q (proj t0 tr).
Proof.
  induction tr as [|[t e] tr IH]; intros H; [done|].
  assert (IH' : count Q (tr.*2) = count Q (proj t0 tr)).
  { apply IH. intros t' e' Hin. apply H. by right. }
  rewrite fmap_cons.
  change (count Q ((t, e).2 :: tr.*2)) with ((if Q e then 1 else 0) + count Q (tr.*2)).
  rewrite IH'. destruct (decide (t = t0)) as [->|Hne].
  - by rewrite proj_cons_eq.
  - rewrite proj_cons_ne by done.
    destruct (Q e) eqn:HQ; [|done]. destruct Hne. eapply H; [by left|done].
Qed.

Section HealthStatus.
Context (env : Env) (rt : Routes) (opts : CollectorOptions).

Abbreviation tr sched := (trace (run env rt opts sched)).
Abbreviation main := (events env 0 (Run rt opts)).

Lemma count_served_main : count is_health_served main <= 1.
Proof. unfold Run. simpl. oracle; lia. Qed.

Lemma count_set_primary : count is_set (events env 2 (code rt opts 2)) <= 1.
Proof. unfold code, primaryHTTP. simpl. oracle; lia. Qed.



Lemma served_entry e :
  In e main -> is_health_served e = true -> e = health_served opts.
Proof.
  unfold Run, health_served. simpl.
  oracle; intros Hx He; repeat (destruct Hx as [Hx|Hx]; [by subst e|]); done.
Qed.

(** Each goroutine's share of a count is bounded by the count in its code. *)
Lemma count_entries Q t0 sched :
  (forall t e, In (t, e) (tr sched) -> Q e = true -> t = t0) ->
  count Q ((tr sched).*2) <= count Q (events env t0 (code rt opts t0)).
Proof.
  intros H. rewrite (count_global Q t0 _ H).
  destruct (proj_prefix env rt opts sched t0) as [rest ->].
  rewrite count_app. lia.
Qed.

Lemma served_by_main sched t e :
  In (t, e) (tr sched) -> is_health_served e = true -> t = 0.
Proof.
  intros Hin He. destruct e as [c r| | | | | |]; try done.
  by destruct (call_by_main env rt opts _ _ _ _ Hin).
Qed.

Lemma ready_by_main sched t e :
  In (t, e) (tr sched) -> is_ready e = true -> t = 0.
Proof. intros Hin He. by apply (only_main env rt opts is_ready sched t e). Qed.

Lemma set_by_primary sched t e :
  In (t, e) (tr sched) -> is_set e = true -> t = 2.
Proof. intros Hin He. by destruct (set_entry env rt opts _ _ _ Hin He). Qed.









End HealthStatus.




(** ** Exit, signal and progress of goroutine 0 *)

Lemma straight_Run rt opts : straight (Run rt opts).
Proof. unfold Run. simpl. intros [?|]; [done|]. intros [?|]; [done|].
  intros [?|]; [done|]. by intros [?|]. Qed.


Lemma emit_main env tid ev k st p p' :
  threads st !! tid = Some p ->
  threads (emit env tid ev k st) !! 0 = Some p' ->
  (tid = 0 /\ p' = k) \/ (tid <> 0 /\ threads st !! 0 = Some p').
Proof.
  intros Hp. simpl.
  assert (Hlt : tid < length (threads st)) by (by eapply lookup_lt_Some).
  rewrite lookup_app_l by (rewrite length_insert; lia).
  destruct (decide (tid = 0)) as [->|Hne].
  - rewrite list_lookup_insert_eq by done. intros [= <-]. by left.
  - rewrite list_lookup_insert_ne by done. by right.
Qed.

Lemma straight_step env st t :
  (forall p, threads st !! 0 = Some p -> straight p) ->
  forall p, threads (step env st t) !! 0 = Some p -> straight p.
Proof.
  intros H p. unfold step. destruct (exited st); [apply H|].
  destruct t as [tid|].
  - unfold step_thread. destruct (threads st !! tid) as [q|] eqn:Hq; [|apply H].
    destruct q as [|e k|c k|msg err|child k|addr h k|addr k|k]; try apply H.
    + case_decide; apply H.
    + intros Hp. destruct (emit_main _ _ _ _ _ _ _ Hq Hp) as [[-> ->]|[_ Hp']]; [|by apply H].
      by apply (H _ Hq).
    + intros Hp. destruct (emit_main _ _ _ _ _ _ _ Hq Hp) as [[-> ->]|[_ Hp']]; [|by apply H].
      by apply (H _ Hq).
    + intros Hp. change (threads (exit 1 ?s)) with (threads s) in Hp.
      destruct (emit_main _ _ _ _ _ _ _ Hq Hp) as [[-> ->]|[_ Hp']]; [done|by apply H].
    + intros Hp. destruct (emit_main _ _ _ _ _ _ _ Hq Hp) as [[-> ->]|[_ Hp']]; [|by apply H].
      by apply (H _ Hq).
    + intros Hp. destruct (emit_main _ _ _ _ _ _ _ Hq Hp) as [[-> ->]|[_ Hp']]; [|by apply H].
      by destruct (H _ Hq).
    + destruct (serve_returns env tid addr) as [r|]; [|apply H].
      intros Hp. destruct (emit_main _ _ _ _ _ _ _ Hq Hp) as [[-> ->]|[_ Hp']]; [|by apply H].
      by destruct (H _ Hq).
  - unfold step_signal. destruct (threads st !! 0) as [q|] eqn:Hq;
      [|intros Hp; apply H; congruence].
    destruct q as [| | | | | | |k]; try (intros Hp; apply H; congruence).
    intros Hp. destruct (emit_main _ _ _ _ _ _ _ Hq Hp) as [[_ ->]|[? _]]; [|done].
    apply (H (Recv k) eq_refl).
Qed.

(** Goroutine 0 never enters http.ListenAndServe. *)
Lemma main_straight env rt opts sched p :
  threads (run env rt opts sched) !! 0 = Some p -> straight p.
Proof.
  revert p. induction sched as [|t sched IH] using rev_ind.
  - intros p [= <-]. apply straight_Run.
  - unfold run. rewrite run_from_snoc. by apply straight_step.
Qed.

Lemma main_state env rt opts sched :
  exists p, threads (run env rt opts sched) !! 0 = Some p /\
    proj 0 (trace (run env rt opts sched)) ++ events env 0 p =
    events env 0 (Run rt opts).
Proof.
  pose proof (run_inv env (Run rt opts) sched) as [Hlen Hthr _ _ _ _ _].
  fold (run env rt opts sched) in Hlen, Hthr.
  destruct (threads (run env rt opts sched) !! 0) as [p|] eqn:Hp.
  - exists p. split; [done|]. by apply (Hthr 0 p (Run rt opts)).
  - apply lookup_ge_None in Hp. lia.
Qed.

Lemma running_no_fatal env rt opts sched t e :
  exited (run env rt opts sched) = None ->
  In (t, e) (trace (run env rt opts sched)) -> is_fatal e = false.
Proof.
  intros Hex Hin. destruct e; try done.
  pose proof (run_inv env (Run rt opts) sched) as [_ _ _ _ _ Hfatal _].
  fold (run env rt opts sched) in Hfatal. by rewrite (Hfatal _ _ _ Hin) in Hex.
Qed.

Lemma Run_ends env rt opts :
  existsb (fun e => is_ready e || is_fatal e) (events env 0 (Run rt opts)) = true.
Proof. unfold Run. simpl. by oracle. Qed.

Lemma ready_before_signal env rt opts :
  before is_ready is_signal false (events env 0 (Run rt opts)) = true.
Proof. unfold Run. simpl. by oracle. Qed.

Lemma Run_no_fatal env rt opts :
  count is_fatal (events env 0 (Run rt opts)) = 0 -> started env opts.
Proof. unfold started, Run. simpl. oracle; intros H; try done; lia. Qed.


Lemma events_do_inv env tid p e rest :
  events env tid p = EvDo e :: rest ->
  exists k, p = Do e k /\ events env tid k = rest.
Proof.
  destruct p; simpl; try done.
  - intros [= <- <-]. eauto.
  - by destruct (serve_returns env tid addr).
Qed.


Lemma fatal_entry_last env rt opts sched pre x post :
  trace (run env rt opts sched) = pre ++ x :: post ->
  is_fatal x.2 = true -> post = [].
Proof.
  intros Htr Hx. revert pre post Htr.
  induction sched as [|t sched IH] using rev_ind; intros pre post.
  { simpl. by destruct pre. }
  unfold run. rewrite run_from_snoc. fold (run env rt opts sched).
  assert (Hlast : forall y, exited (run env rt opts sched) = None ->
    trace (run env rt opts sched) ++ [y] = pre ++ x :: post -> post = []).
  { intros y Hex Heq. destruct post as [|z post _] using rev_ind; [done|].
    rewrite app_comm_cons, app_assoc in Heq. apply app_inj_tail in Heq as [Heq _].
    assert (Hin : In x (trace (run env rt opts sched))).
    { rewrite Heq. apply in_or_app. right. by left. }
    destruct x as [t' e]. simpl in Hx.
    by rewrite (running_no_fatal env rt opts sched t' e Hex Hin) in Hx. }
  destruct (step_moved env (run env rt opts sched) t)
    as [|Hex Hret|tid p ev k Hex Hp Hev Hnf|tid msg err Hex Hp]; simpl; eauto.
Qed.

(** X2: a signal that arrives before readiness was signalled is lost.  The
    signal channel has no buffer and goroutine 0 receives from it only in
    the select after hc.Ready: until then a delivered signal leaves the
    state of the process as it was. *)
Theorem signal_before_ready_is_lost env rt opts sched :
  let st := run env rt opts sched in
  ~ In (0, EvDo hc_Ready) (trace st) ->
  step env st DeliverSignal = st.
Proof.
  intros st Hnr. unfold step. destruct (exited st); [done|].
  unfold step_signal.
  destruct (main_state env rt opts sched) as (p & Hp & Hev). fold st in Hp, Hev.
  rewrite Hp. destruct p as [| | | | | | |k]; try done.
  exfalso. simpl in Hev. symmetry in Hev.
  destruct (before_exists _ _ _ _ _ _ (ready_before_signal env rt opts) Hev eq_refl)
    as (y & Hy & Hr).
  destruct y as [|[]| | | | |]; try done. apply Hnr. by apply proj_In.
Qed.

Lemma signal_before_ready_is_lost_witness :
  let st := run env_ok routes_demo opts_default (main_only 15 ++ [RunThread 2]) in
  ~ In (0, EvDo hc_Ready) (trace st) /\ step env_ok st DeliverSignal = st.
Proof.
  intros st.
  assert (Hnr : ~ In (0, EvDo hc_Ready) (trace st)).
  { vm_compute. intros H. repeat (destruct H as [H|H]; [discriminate H|]). exact H. }
  split; [exact Hnr|].
  exact (signal_before_ready_is_lost env_ok routes_demo opts_default _ Hnr).
Defined.

Lemma main_moves env rt opts sched :
  let st := run env rt opts sched in
  exited st = None ->
  ~ In (0, EvDo hc_Ready) (trace st) ->
  exists e, trace (step env st (RunThread 0)) = trace st ++ [(0, e)].
Proof.
  intros st Hex Hnr.
  destruct (main_state env rt opts sched) as (p & Hp & Hev). fold st in Hp, Hev.
  unfold step. rewrite Hex. unfold step_thread. rewrite Hp.
  destruct p as [|e k|c k|msg err|child k|addr h k|addr k|k]; simpl; eauto.
  - exfalso. change (events env 0 Ret) with (@nil Event) in Hev.
    rewrite app_nil_r in Hev.
    pose proof (Run_ends env rt opts) as Hends. rewrite <- Hev in Hends.
    apply existsb_exists in Hends as (e & He & Hq). apply proj_In in He.
    apply orb_prop in Hq as [Hq|Hq].
    + destruct e as [|[]| | | | |]; try done.
    + by rewrite (running_no_fatal env rt opts sched 0 e Hex He) in Hq.
  - destruct (serve_returns env 0 addr) as [r|] eqn:Hr; [eauto|].
    exfalso. pose proof (main_straight env rt opts sched _ Hp) as Hs. done.
  - exfalso. simpl in Hev. symmetry in Hev.
    destruct (before_exists _ _ _ _ _ _ (ready_before_signal env rt opts) Hev eq_refl)
      as (y & Hy & Hr).
    destruct y as [|[]| | | | |]; try done. apply Hnr. by apply proj_In.
Qed.

(** X3: goroutine 0 is never blocked before the select.  As long as the
    process runs and readiness has not been signalled, every step of
    goroutine 0 adds one entry of goroutine 0 to the trace: start-up waits
    for no front-end and for no signal. *)
Theorem startup_never_blocks env rt opts sched :
  let st := run env rt opts sched in
  exited st = None ->
  ~ In (0, EvDo hc_Ready) (trace st) ->
  exists e, trace (step env st (RunThread 0)) = trace st ++ [(0, e)].
Proof. apply main_moves. Qed.

Lemma startup_never_blocks_witness :
  let st := run env_ok routes_demo opts_default (main_only 7 ++ [DeliverSignal]) in
  exited st = None /\
  ~ In (0, EvDo hc_Ready) (trace st) /\
  exists e, trace (step env_ok st (RunThread 0)) = trace st ++ [(0, e)].
Proof.
  intros st.
  assert (Hex : exited st = None) by (vm_compute; reflexivity).
  assert (Hnr : ~ In (0, EvDo hc_Ready) (trace st)).
  { vm_compute. intros H. repeat (destruct H as [H|H]; [discriminate H|]). exact H. }
  split; [exact Hex|]. split; [exact Hnr|].
  exact (startup_never_blocks env_ok routes_demo opts_default _ Hex Hnr).
Defined.




(** X5: the exit codes.  A process that has exited with code 0 has received
    a signal, has logged that it is finishing and has logged nothing
    fatal; every other exit is with code 1, and then the last entry of the
    trace is a fatal log. *)
Theorem exit_codes env rt opts sched c :
  let st := run env rt opts sched in
  exited st = Some c ->
  (c = 0%Z /\ In (0, EvSignal) (trace st) /\ In (0, EvDo Finishing) (trace st) /\
   forall t e, In (t, e) (trace st) -> is_fatal e = false) \/
  (c = 1%Z /\ exists t msg err, last (trace st) = Some (t, EvFatal msg err)).
Proof.
  intros st Hex.
  pose proof (run_inv env (Run rt opts) sched) as [_ Hthr _ _ _ Hfatal Hexit].
  fold (run env rt opts sched) in Hthr, Hfatal, Hexit. fold st in Hthr, Hfatal, Hexit.
  destruct (Hexit c Hex) as [[-> (t & msg & err & Hin)]|[-> Hret]].
  - right. split; [done|]. exists t, msg, err.
    apply in_split in Hin as (pre & post & Htr).
    rewrite (fatal_entry_last env rt opts sched pre _ post Htr eq_refl) in Htr.
    fold st in Htr. rewrite Htr. apply last_snoc.
  - left. split; [done|].
    assert (Hnf : forall t e, In (t, e) (trace st) -> is_fatal e = false).
    { intros t e Hin. destruct e; try done. by rewrite (Hfatal _ _ _ Hin) in Hex. }
    pose proof (Hthr 0 Ret (Run rt opts) Hret eq_refl) as Hev.
    change (events env 0 Ret) with (@nil Event) in Hev. rewrite app_nil_r in Hev.
    assert (Hstarted : started env opts).
    { apply (Run_no_fatal env rt opts). rewrite <- Hev.
      assert (Hall : forall l, (forall e, In e l -> is_fatal e = false) -> count is_fatal l = 0).
      { induction l as [|x l IHl]; [done|]. intros H. simpl.
        rewrite (H x (or_introl eq_refl)), IHl; [done|]. intros e He. apply H. by right. }
      apply Hall. intros e He. apply proj_In in He. by eapply Hnf. }
    pose proof (Run_started env rt opts Hstarted) as Hmain. rewrite <- Hev in Hmain.
    assert (Hin : forall e, In e [EvDo hc_Ready; EvSignal; EvDo Finishing] ->
                            In (0, e) (trace st)).
    { intros e He. apply proj_In. rewrite Hmain. apply in_or_app. right.
      apply in_or_app. by right. }
    split; [apply Hin; simpl; auto|]. split; [apply Hin; simpl; auto|done].
Qed.

Lemma exit_codes_witness :
  let st := run env_ok routes_demo opts_default
              (main_only 16 ++ [DeliverSignal; RunThread 0; RunThread 0]) in
  exited st = Some 0%Z /\
  In (0, EvSignal) (trace st) /\ In (0, EvDo Finishing) (trace st).
Proof.
  intros st.
  assert (Hex : exited st = Some 0%Z) by (vm_compute; reflexivity).
  split; [exact Hex|].
  destruct (exit_codes env_ok routes_demo opts_default _ 0%Z Hex)
    as [(_ & H1 & H2 & _)|[Hc _]]; [|discriminate Hc].
  split; [exact H1|exact H2].
Defined.

(** ** The other fatal start-up steps *)

(** The runs after a failed start-up call, given what [Run] does up to the
    call: goroutine 0 stays alone, the trace is what [Run] did up to the
    call, followed by the fatal log once goroutine 0 has been scheduled. *)
Lemma failure_trace env rt opts sched tid c err l0 msg sched' :
  In (tid, EvCall c (Some err)) (trace (run env rt opts sched)) ->
  events env 0 (Run rt opts) = (l0 ++ [EvCall c (Some err)]) ++ [EvFatal msg err] ->
  let st := run env rt opts (sched ++ sched') in
  ((trace st = map (pair 0) (l0 ++ [EvCall c (Some err)]) /\ exited st = None) \/
   (trace st = map (pair 0) ((l0 ++ [EvCall c (Some err)]) ++ [EvFatal msg err]) /\
    exited st = Some 1%Z)) /\
  length (threads st) = 1 /\
  (In (RunThread 0) sched' ->
   exited st = Some 1%Z /\
   trace st = map (pair 0) ((l0 ++ [EvCall c (Some err)]) ++ [EvFatal msg err])).
Proof.
  intros Hin Hmain st.
  assert (Hin' : In (tid, EvCall c (Some err)) (trace st)) by (by apply trace_monotone).
  destruct (failure_state env rt opts _ _ _ _ Hin') as (l & msg' & Hm & Hq & Hst).
  fold st in Hst. rewrite Hmain in Hm, Hst.
  change (l ++ [?a; ?b]) with (l ++ [a] ++ [b]) in Hm. rewrite app_assoc in Hm.
  apply app_inj_tail in Hm as [Hm [= <-]]. apply app_inj_tail in Hm as [<- _].
  pose proof (run_inv env (Run rt opts) (sched ++ sched')) as [Hlen _ _ _ _ _ _].
  fold (run env rt opts (sched ++ sched')) in Hlen. fold st in Hlen.
  split; [|split].
  - destruct Hst as [[Hex Ht]|(Hex & _ & Ht)]; auto.
  - destruct Hst as [[_ Ht]|(_ & Hthr & _)]; [|by rewrite Hthr].
    rewrite Hlen, spawned_nil; [done|]. intros t e He. rewrite Ht in He.
    apply in_map_iff in He as (x & [= <- <-] & Hx).
    apply in_app_or in Hx as [Hx|[<-|[]]]; [|done].
    apply in_app_or in Hx as [Hx|[<-|[]]]; [|done].
    pose proof (quiet_In _ _ Hq Hx) as Hx'. unfold quiet in Hx'.
    apply negb_true_iff in Hx'. by repeat (apply orb_false_elim in Hx' as [Hx' _]).
  - intros Hs. destruct (failure_exits env rt opts _ _ _ _ _ Hin Hs) as [Hex Ht].
    fold st in Hex, Ht. by rewrite Hmain in Ht.
Qed.

Lemma Run_builder_failed env rt opts err :
  In (EvCall NewSpanHandlerBuilder (Some err)) (events env 0 (Run rt opts)) ->
  events env 0 (Run rt opts) =
  ([health_served opts] ++ [EvCall NewSpanHandlerBuilder (Some err)]) ++
  [EvFatal "Unable to set up builder" err].
Proof.
  unfold Run, health_served. simpl. oracle; intros H;
    repeat (destruct H as [H|H]; [try discriminate H|]); try (by destruct H).
  by injection H as <-.
Qed.

Lemma Run_channel_failed env rt opts name err :
  In (EvCall (NewChannel name) (Some err)) (events env 0 (Run rt opts)) ->
  name = serviceName /\
  events env 0 (Run rt opts) =
  ([health_served opts; EvCall NewSpanHandlerBuilder None] ++
   [EvCall (NewChannel name) (Some err)]) ++
  [EvFatal "Unable to create new TChannel" err].
Proof.
  unfold Run, health_served. simpl. oracle; intros H;
    repeat (destruct H as [H|H]; [try discriminate H|]); try (by destruct H).
  by injection H as <- <-.
Qed.

(** X6: when the span handler builder cannot be set up, the process logs
    fatal and exits with code 1 at the next step of goroutine 0.  In every
    continuation the trace holds nothing but the start of the health check
    server, the failed call and that fatal log: no TChannel is created, no
    listener is bound, no goroutine is launched, and the health status is
    Unavailable to the end. *)
Theorem builder_failure env rt opts sched tid err sched' :
  In (tid, EvCall NewSpanHandlerBuilder (Some err)) (trace (run env rt opts sched)) ->
  let st := run env rt opts (sched ++ sched') in
  let failed := [(0, health_served opts); (0, EvCall NewSpanHandlerBuilder (Some err))] in
  let fatal := (0, EvFatal "Unable to set up builder" err) in
  ((trace st = failed /\ exited st = None) \/
   (trace st = failed ++ [fatal] /\ exited st = Some 1%Z)) /\
  length (threads st) = 1 /\
  health st = Some StatusServiceUnavailable /\
  (In (RunThread 0) sched' -> exited st = Some 1%Z /\ trace st = failed ++ [fatal]).
Proof.
  intros Hin st failed fatal.
  destruct (call_by_main env rt opts _ _ _ _ Hin) as [-> Hc].
  pose proof (Run_builder_failed env rt opts err Hc) as Hmain.
  destruct (failure_trace env rt opts sched 0 _ err _ _ sched' Hin Hmain)
    as (Htr & Hlen & Hlive).
  fold st in Htr, Hlen, Hlive.
  pose proof (run_inv env (Run rt opts) (sched ++ sched')) as [_ _ _ _ Hh _ _].
  fold (run env rt opts (sched ++ sched')) in Hh. fold st in Hh.
  split; [exact Htr|]. split; [exact Hlen|]. split; [|exact Hlive].
  rewrite Hh. by destruct Htr as [[-> _]|[-> _]].
Qed.

Lemma builder_failure_witness :
  let st := run env_builder_fails routes_demo opts_default (main_only 2 ++ [RunThread 0]) in
  In (0, EvCall NewSpanHandlerBuilder (Some "unknown span storage type"))
     (trace (run env_builder_fails routes_demo opts_default (main_only 2))) /\
  exited st = Some 1%Z /\
  length (threads st) = 1 /\
  health st = Some StatusServiceUnavailable.
Proof.
  intros st.
  assert (Hin : In (0, EvCall NewSpanHandlerBuilder (Some "unknown span storage type"))
     (trace (run env_builder_fails routes_demo opts_default (main_only 2)))).
  { vm_compute. right. by left. }
  destruct (builder_failure env_builder_fails routes_demo opts_default
              (main_only 2) 0 _ [RunThread 0] Hin) as (_ & Hlen & Hh & Hlive).
  destruct (Hlive (or_introl eq_refl)) as [Hex _].
  split; [exact Hin|]. split; [exact Hex|]. split; [exact Hlen|exact Hh].
Defined.

(** X7: when tchannel.NewChannel fails, the process logs fatal and exits
    with code 1 at the next step of goroutine 0.  The health check server
    and the span handler builder were set up; nothing else is: no service
    is registered, no listener is bound, no goroutine is launched, and the
    health status is Unavailable to the end. *)
Theorem channel_failure env rt opts sched tid name err sched' :
  In (tid, EvCall (NewChannel name) (Some err)) (trace (run env rt opts sched)) ->
  let st := run env rt opts (sched ++ sched') in
  let failed := [(0, health_served opts); (0, EvCall NewSpanHandlerBuilder None);
                 (0, EvCall (NewChannel serviceName) (Some err))] in
  let fatal := (0, EvFatal "Unable to create new TChannel" err) in
  name = serviceName /\
  ((trace st = failed /\ exited st = None) \/
   (trace st = failed ++ [fatal] /\ exited st = Some 1%Z)) /\
  length (threads st) = 1 /\
  health st = Some StatusServiceUnavailable /\
  (In (RunThread 0) sched' -> exited st = Some 1%Z /\ trace st = failed ++ [fatal]).
Proof.
  intros Hin st failed fatal.
  destruct (call_by_main env rt opts _ _ _ _ Hin) as [-> Hc].
  destruct (Run_channel_failed env rt opts name err Hc) as [-> Hmain].
  destruct (failure_trace env rt opts sched 0 _ err _ _ sched' Hin Hmain)
    as (Htr & Hlen & Hlive).
  fold st in Htr, Hlen, Hlive.
  pose proof (run_inv env (Run rt opts) (sched ++ sched')) as [_ _ _ _ Hh _ _].
  fold (run env rt opts (sched ++ sched')) in Hh. fold st in Hh.
  split; [done|]. split; [exact Htr|]. split; [exact Hlen|]. split; [|exact Hlive].
  rewrite Hh. by destruct Htr as [[-> _]|[-> _]].
Qed.

Lemma channel_failure_witness :
  let st := run env_channel_fails routes_demo opts_default (main_only 3 ++ [RunThread 0]) in
  In (0, EvCall (NewChannel "jaeger-collector") (Some "no service name provided"))
     (trace (run env_channel_fails routes_demo opts_default (main_only 3))) /\
  exited st = Some 1%Z /\
  length (threads st) = 1 /\
  health st = Some StatusServiceUnavailable.
Proof.
  intros st.
  assert (Hin : In (0, EvCall (NewChannel "jaeger-collector")
                         (Some "no service name provided"))
     (trace (run env_channel_fails routes_demo opts_default (main_only 3)))).
  { vm_compute. do 2 right. by left. }
  destruct (channel_failure env_channel_fails routes_demo opts_default
              (main_only 3) 0 _ _ [RunThread 0] Hin) as (_ & _ & Hlen & Hh & Hlive).
  destruct (Hlive (or_introl eq_refl)) as [Hex _].
  split; [exact Hin|]. split; [exact Hex|]. split; [exact Hlen|exact Hh].
Defined.

(** ** The order of the start-up steps *)

Lemma keep_app Q a b : keep Q (a ++ b) = keep Q a ++ keep Q b.
Proof.
  induction a as [|x a IH]; [done|]. simpl. rewrite IH. by destruct (Q x).
Qed.

Lemma keep_global Q t0 (tr : list (nat * Event)) :
  (forall t e, In (t, e) tr -> Q e = true -> t = t0) ->
  keep Q (tr.*2) = keep Q (proj t0 tr).
Proof.
  induction tr as [|[t e] tr IH]; intros H; [done|].
  assert (IH' : keep Q (tr.*2) = keep Q (proj t0 tr)).
  { apply IH. intros t' e' Hin. apply H. by right. }
  rewrite fmap_cons.
  change (keep Q ((t, e).2 :: tr.*2))
    with (if Q e then e :: keep Q (tr.*2) else keep Q (tr.*2)).
  rewrite IH'. destruct (decide (t = t0)) as [->|Hne].
  - by rewrite proj_cons_eq.
  - rewrite proj_cons_ne by done.
    destruct (Q e) eqn:HQ; [|done]. destruct Hne. eapply H; [by left|done].
Qed.

Lemma calls_of_Run env rt opts :
  keep is_call (events env 0 (Run rt opts)) = until_failure env (startup_calls opts).
Proof. unfold Run, startup_calls. simpl. by oracle. Qed.

Lemma calls_made_main (tr : list (nat * Event)) :
  (forall t e, In (t, e) tr -> is_call e = true -> t = 0) ->
  calls_made tr = (fun e => (0, e)) <$> keep is_call (tr.*2).
Proof.
  induction tr as [|[t e] tr IH]; intros H; [done|].
  assert (IH' : calls_made tr = (fun e => (0, e)) <$> keep is_call (tr.*2)).
  { apply IH. intros t' e' Hin. apply H. by right. }
  rewrite fmap_cons. unfold calls_made in *. cbn [List.filter keep snd].
  destruct (is_call e) eqn:He; [|done].
  rewrite fmap_cons, IH'. f_equal. f_equal. eapply H; [by left|done].
Qed.

(** X8: the fallible start-up calls are made in one order, once each and
    by goroutine 0 only.  In every run the call entries of the trace, each
    with the goroutine that made it, are an initial part of
    healthcheck.Serve, NewSpanHandlerBuilder, tchannel.NewChannel,
    net.Listen made by goroutine 0, cut after the first call that returned
    an error. *)
Theorem startup_calls_in_order env rt opts sched :
  exists rest,
    calls_made (trace (run env rt opts sched)) ++ rest =
    (fun e => (0, e)) <$> until_failure env (startup_calls opts).
Proof.
  destruct (proj_prefix env rt opts sched 0) as [rest Hrest].
  exists ((fun e => (0, e)) <$> keep is_call rest).
  assert (Hmain : forall t e, In (t, e) (trace (run env rt opts sched)) ->
                              is_call e = true -> t = 0).
  { intros t e Hin He. destruct e; try done.
    by destruct (call_by_main env rt opts _ _ _ _ Hin). }
  rewrite (calls_made_main _ Hmain), <- fmap_app. f_equal.
  rewrite (keep_global is_call 0 _ Hmain).
  rewrite <- keep_app, <- Hrest. apply calls_of_Run.
Qed.

(** With every call answered by nil and goroutine 0 run to the select, the
    four calls are in the trace, all by goroutine 0. *)
Example startup_calls_all_made :
  calls_made (trace (run env_ok routes_demo opts_default (main_only 16))) =
  [(0, EvCall (healthcheck_Serve 503 14269) None);
   (0, EvCall NewSpanHandlerBuilder None);
   (0, EvCall (NewChannel serviceName) None);
   (0, EvCall (net_Listen "tcp" ":14267") None)].
Proof. vm_compute. reflexivity. Qed.

Lemma Run_ch_serve env rt opts :
  In (EvDo ch_Serve) (events env 0 (Run rt opts)) -> started env opts.
Proof.
  unfold started, Run. simpl.
  oracle; intros Hx; repeat (destruct Hx as [Hx|Hx]; [try done|]); done.
Qed.

Lemma count_ch_serve_main env rt opts :
  count is_ch_serve (events env 0 (Run rt opts)) <= 1.
Proof. unfold Run. simpl. oracle; lia. Qed.

(** X9: the transport serves only a bound listener with both services
    registered.  When ch.Serve is called, goroutine 0 has done exactly
    this before: the health check server, the span handler builder and the
    TChannel were set up, the thrift server was created, the handlers were
    built, the Jaeger and the Zipkin collector services were registered,
    and net.Listen returned without error. *)
Theorem serve_after_registration_and_bind env rt opts sched pre t post :
  trace (run env rt opts sched) = pre ++ (t, EvDo ch_Serve) :: post ->
  t = 0 /\ proj 0 pre = before_listen opts ++ [bound opts].
Proof.
  intros Htr.
  assert (Hin : In (t, EvDo ch_Serve) (trace (run env rt opts sched))).
  { rewrite Htr. apply in_or_app. right. by left. }
  assert (t = 0) as ->.
  { by apply (only_main env rt opts is_ch_serve sched t (EvDo ch_Serve)). }
  split; [done|].
  destruct (entry_in_code env rt opts _ _ _ Hin) as [_ Hc].
  pose proof (Run_started env rt opts (Run_ch_serve env rt opts Hc)) as Hmain.
  assert (exists tail, events env 0 (Run rt opts) =
            (before_listen opts ++ [bound opts]) ++ EvDo ch_Serve :: tail)
    as [tail Hmain'] by (eexists; rewrite Hmain; reflexivity).
  destruct (thread_view env rt opts _ _ _ _ _ Htr) as (_ & (rest & Hr) & _).
  change (code rt opts 0) with (Run rt opts) in Hr.
  by destruct (split_unique is_ch_serve _ _ _ _ _ _ _
                 (count_ch_serve_main env rt opts) Hmain' Hr eq_refl eq_refl)
    as (<- & _ & _).
Qed.

Lemma serve_after_registration_and_bind_witness :
  let st := run env_ok routes_demo opts_default (main_only 9) in
  trace st = take 8 (trace st) ++ (0, EvDo ch_Serve) :: [] /\
  proj 0 (take 8 (trace st)) = before_listen opts_default ++ [bound opts_default].
Proof.
  intros st.
  assert (Htr : trace st = take 8 (trace st) ++ (0, EvDo ch_Serve) :: [])
    by reflexivity.
  split; [exact Htr|].
  by destruct (serve_after_registration_and_bind env_ok routes_demo opts_default
                 _ _ _ _ Htr).
Defined.

(** ** The Zipkin front-end and the end of a front-end goroutine *)

Lemma zipkin_events env rt opts :
  CollectorZipkinHTTPPort opts <> 0%Z ->
  let addr := ":" +:+ Itoa (CollectorZipkinHTTPPort opts) in
  events env 1 (code rt opts 1) =
  zipkin_setup opts ++
  EvListenAndServe addr (NewRecoveryHandler true (zipkinRoutes rt)) ::
  match serve_returns env 1 addr with
  | Some (Some e) => [EvServeReturned addr (Some e); EvFatal "Could not launch service" e]
  | Some None => [EvServeReturned addr None]
  | None => []
  end.
Proof.
  intros Hz. unfold code, startZipkinHTTPAPI. case_decide; [|done].
  simpl. by destruct (serve_returns env 1 _) as [[?|]|].
Qed.

Lemma primary_events env rt opts :
  let addr := ":" +:+ Itoa (CollectorHTTPPort opts) in
  events env 2 (code rt opts 2) =
  EvListenAndServe addr (NewRecoveryHandler true (apiRoutes rt)) ::
  match serve_returns env 2 addr with
  | Some (Some e) => [EvServeReturned addr (Some e); EvFatal "Could not launch service" e]
  | Some None => [EvServeReturned addr None; EvDo (hc_Set StatusInternalServerError)]
  | None => []
  end.
Proof.
  unfold code, primaryHTTP. simpl. by destruct (serve_returns env 2 _) as [[?|]|].
Qed.

Lemma zipkin_returned env rt opts a r :
  In (EvServeReturned a r) (events env 1 (code rt opts 1)) ->
  CollectorZipkinHTTPPort opts <> 0%Z /\
  a = ":" +:+ Itoa (CollectorZipkinHTTPPort opts) /\
  serve_returns env 1 a = Some r.
Proof.
  destruct (decide (CollectorZipkinHTTPPort opts = 0%Z)) as [Hz|Hz].
  { unfold code, startZipkinHTTPAPI. by rewrite Hz. }
  rewrite (zipkin_events env rt opts Hz). intros Hin. split; [done|].
  apply in_app_or in Hin as [Hin|Hin].
  { simpl in Hin. by repeat (destruct Hin as [Hin|Hin]; [done|]). }
  destruct Hin as [Hin|Hin]; [done|].
  destruct (serve_returns env 1 _) as [[e|]|] eqn:Hr;
    repeat (destruct Hin as [Hin|Hin]; [try done|]); try done;
    injection Hin as <- <-; by rewrite Hr.
Qed.

(** What a goroutine is about to do after an event that occurs once in its
    code. *)
Lemma after_entry env rt opts sched tid Q x l rest p :
  In (tid, x) (trace (run env rt opts sched)) ->
  events env tid (code rt opts tid) = l ++ x :: rest ->
  Q x = true -> count Q (events env tid (code rt opts tid)) <= 1 ->
  threads (run env rt opts sched) !! tid = Some p ->
  exists done, proj tid (trace (run env rt opts sched)) = l ++ x :: done /\
               done ++ events env tid p = rest.
Proof.
  intros Hin Hcode HQ Hcount Hp.
  pose proof (thread_state env rt opts _ _ _ Hp) as Hst.
  apply proj_In in Hin. apply in_split in Hin as (l1 & l2 & Hl).
  rewrite Hl, <- app_assoc in Hst. simpl in Hst. symmetry in Hst.
  destruct (split_unique Q _ _ _ _ _ _ _ Hcount Hcode Hst HQ HQ) as (<- & _ & Hrest).
  exists l2. by rewrite Hl.
Qed.

Lemma step_idle env st tid p :
  threads st !! tid = Some p -> events env tid p = [] -> tid <> 0 ->
  step env st (RunThread tid) = st.
Proof.
  intros Hp Hev Hne. unfold step. destruct (exited st); [done|].
  unfold step_thread. rewrite Hp. destruct p; simpl in Hev; try done.
  - by case_decide.
  - by destruct (serve_returns env tid addr).
Qed.

Lemma step_fatal env st tid msg err :
  exited st = None -> threads st !! tid = Some (Fatal msg err) ->
  step env st (RunThread tid) = exit 1 (emit env tid (EvFatal msg err) Ret st).
Proof. intros Hex Hp. unfold step. rewrite Hex. unfold step_thread. by rewrite Hp. Qed.

Lemma count_failed_return_zipkin env rt opts :
  count is_failed_return (events env 1 (code rt opts 1)) <= 1.
Proof.
  unfold code, startZipkinHTTPAPI. case_decide; simpl; [|lia]. oracle; lia.
Qed.

Lemma count_returned_nil_zipkin env rt opts :
  count is_returned_nil (events env 1 (code rt opts 1)) <= 1.
Proof.
  unfold code, startZipkinHTTPAPI. case_decide; simpl; [|lia]. oracle; lia.
Qed.

(** X10: a failure of the Zipkin front-end ends the whole process.  When
    http.ListenAndServe of the Zipkin front-end has returned an error, the
    next step of its goroutine is logger.Fatal: the process exits with code
    1, whatever the state of the transport and of the primary front-end,
    and the health status is not written. *)
Theorem zipkin_listen_error_is_fatal env rt opts sched a err :
  let st := run env rt opts sched in
  In (1, EvServeReturned a (Some err)) (trace st) ->
  exited st = None ->
  let st' := step env st (RunThread 1) in
  exited st' = Some 1%Z /\
  trace st' = trace st ++ [(1, EvFatal "Could not launch service" err)] /\
  health st' = health st.
Proof.
  intros st Hin Hex st'.
  destruct (entry_in_code env rt opts _ _ _ Hin) as [_ Hc].
  destruct (zipkin_returned env rt opts _ _ Hc) as (Hz & -> & Hr).
  pose proof (zipkin_events env rt opts Hz) as Hev. cbv zeta in Hev. rewrite Hr in Hev.
  destruct (thread_exists env rt opts _ _ _ Hin) as [p Hp]. fold st in Hp.
  change (?l ++ ?x :: ?y :: ?r) with (l ++ [x] ++ y :: r) in Hev.
  rewrite app_assoc in Hev.
  destruct (after_entry env rt opts sched 1 is_failed_return _ _ _ p Hin Hev eq_refl
              (count_failed_return_zipkin env rt opts) Hp) as (l2 & Hproj & Hrest).
  destruct l2 as [|x l2].
  - simpl in Hrest. apply events_fatal_inv in Hrest as ->.
    unfold st'. rewrite (step_fatal env st 1 _ _ Hex Hp). done.
  - exfalso. injection Hrest as -> _.
    assert (Hf : In (1, EvFatal "Could not launch service" err) (trace st)).
    { apply proj_In. fold st in Hproj. rewrite Hproj. apply in_or_app. right.
      right. by left. }
    by pose proof (running_no_fatal env rt opts sched _ _ Hex Hf).
Qed.

Lemma zipkin_listen_error_is_fatal_witness :
  let st := run env_zipkin_error routes_demo opts_default sched_zipkin in
  let st' := step env_zipkin_error st (RunThread 1) in
  In (1, EvServeReturned ":9411" (Some "bind: address already in use")) (trace st) /\
  exited st = None /\
  exited st' = Some 1%Z /\
  health st' = Some 204%Z.
Proof.
  intros st st'.
  assert (Hin : In (1, EvServeReturned ":9411" (Some "bind: address already in use"))
                   (trace st)).
  { vm_compute. do 20 right. by left. }
  assert (Hex : exited st = None) by (vm_compute; reflexivity).
  destruct (zipkin_listen_error_is_fatal env_zipkin_error routes_demo opts_default
              sched_zipkin _ _ Hin Hex) as (H1 & _ & H3).
  split; [exact Hin|]. split; [exact Hex|]. split; [exact H1|].
  fold st st' in H3. rewrite H3. vm_compute. reflexivity.
Defined.

(** X11: a clean return of the Zipkin front-end is silent.  When
    http.ListenAndServe of the Zipkin front-end has returned nil, its
    goroutine has ended: however often it is scheduled, the state of the
    process stays as it is, so that nothing is logged, the health status is
    not written and the process does not exit. *)
Theorem zipkin_nil_return_is_silent env rt opts sched a n :
  let st := run env rt opts sched in
  In (1, EvServeReturned a None) (trace st) ->
  run env rt opts (sched ++ repeat (RunThread 1) n) = st.
Proof.
  intros st Hin.
  destruct (entry_in_code env rt opts _ _ _ Hin) as [_ Hc].
  destruct (zipkin_returned env rt opts _ _ Hc) as (Hz & -> & Hr).
  pose proof (zipkin_events env rt opts Hz) as Hev. cbv zeta in Hev. rewrite Hr in Hev.
  destruct (thread_exists env rt opts _ _ _ Hin) as [p Hp]. fold st in Hp.
  change (?l ++ ?x :: ?y :: ?r) with (l ++ [x] ++ y :: r) in Hev.
  rewrite app_assoc in Hev.
  destruct (after_entry env rt opts sched 1 is_returned_nil _ _ _ p Hin Hev eq_refl
              (count_returned_nil_zipkin env rt opts) Hp) as (l2 & _ & Hrest).
  apply app_eq_nil in Hrest as [_ Hidle].
  unfold run. rewrite run_from_app. fold (run env rt opts sched). fold st.
  induction n as [|n IH]; [done|]. simpl.
  by rewrite (step_idle env st 1 p Hp Hidle).
Qed.

Lemma zipkin_nil_return_is_silent_witness :
  let st := run env_zipkin_nil routes_demo opts_default sched_zipkin in
  In (1, EvServeReturned ":9411" None) (trace st) /\
  run env_zipkin_nil routes_demo opts_default (sched_zipkin ++ repeat (RunThread 1) 3) = st.
Proof.
  intros st.
  assert (Hin : In (1, EvServeReturned ":9411" None) (trace st)).
  { vm_compute. do 20 right. by left. }
  split; [exact Hin|].
  exact (zipkin_nil_return_is_silent env_zipkin_nil routes_demo opts_default
           sched_zipkin _ 3 Hin).
Defined.

Lemma count_listen_zipkin env rt opts :
  count is_listen_and_serve (events env 1 (code rt opts 1)) <= 1.
Proof.
  unfold code, startZipkinHTTPAPI. case_decide; simpl; [|lia]. oracle; lia.
Qed.

Lemma count_listen_primary env rt opts :
  count is_listen_and_serve (events env 2 (code rt opts 2)) <= 1.
Proof. unfold code, primaryHTTP. simpl. oracle; lia. Qed.

Lemma router_before_go env rt opts :
  before is_new_router is_go false (events env 0 (Run rt opts)) = true.
Proof. unfold Run. simpl. by oracle. Qed.

Lemma routes_before_go env rt opts :
  before is_jaeger_routes is_go false (events env 0 (Run rt opts)) = true.
Proof. unfold Run. simpl. by oracle. Qed.

(** X12: a front-end listens only with its routes mounted.  When the Zipkin
    goroutine calls http.ListenAndServe it has built its router, registered
    the Zipkin routes on it and logged the port, and it listens on ":"
    followed by the Zipkin port; when the goroutine of the primary
    front-end calls http.ListenAndServe, as its first step, goroutine 0 has
    built the router and registered the Jaeger routes on it.  Either
    handler is the router under the recovery middleware. *)
Theorem routes_mounted_before_listening env rt opts sched pre t a h post :
  trace (run env rt opts sched) = pre ++ (t, EvListenAndServe a h) :: post ->
  (t = 1 /\ proj 1 pre = zipkin_setup opts /\
   a = ":" +:+ Itoa (CollectorZipkinHTTPPort opts) /\
   h = NewRecoveryHandler true (zipkinRoutes rt)) \/
  (t = 2 /\ proj 2 pre = [] /\
   In (0, EvDo NewRouter) pre /\ In (0, EvDo (RegisterRoutes JaegerAPI)) pre /\
   a = ":" +:+ Itoa (CollectorHTTPPort opts) /\
   h = NewRecoveryHandler true (apiRoutes rt)).
Proof.
  intros Htr.
  assert (Hin : In (t, EvListenAndServe a h) (trace (run env rt opts sched))).
  { rewrite Htr. apply in_or_app. right. by left. }
  destruct (thread_view env rt opts _ _ _ _ _ Htr) as (_ & (rest & Hr) & Hgo).
  destruct (listen_and_serve_entry env rt opts _ _ _ _ Hin)
    as [(-> & Hz & -> & ->)|(-> & -> & ->)]; [left|right].
  - split; [done|]. split; [|done].
    pose proof (zipkin_events env rt opts Hz) as Hev. cbv zeta in Hev.
    by destruct (split_unique is_listen_and_serve _ _ _ _ _ _ _
                   (count_listen_zipkin env rt opts) Hev Hr eq_refl eq_refl)
      as (<- & _ & _).
  - split; [done|].
    pose proof (primary_events env rt opts) as Hev. cbv zeta in Hev.
    destruct (split_unique is_listen_and_serve _ [] _ _ _ _ _
                (count_listen_primary env rt opts) Hev Hr eq_refl eq_refl)
      as (<- & _ & _).
    split; [done|].
    specialize (Hgo ltac:(done)). apply in_split in Hgo as (x & y & ->).
    rewrite <- app_assoc in Htr. simpl in Htr.
    destruct (main_before env rt opts is_new_router is_go sched x _ _
                (router_before_go env rt opts) Htr eq_refl) as (e1 & H1 & Hq1).
    destruct (main_before env rt opts is_jaeger_routes is_go sched x _ _
                (routes_before_go env rt opts) Htr eq_refl) as (e2 & H2 & Hq2).
    destruct e1 as [|[]| | | | |]; try done.
    destruct e2 as [|[| | | | |[]| | | | |]| | | | |]; try done.
    repeat split; apply in_or_app; by left.
Qed.

Lemma routes_mounted_before_listening_witness :
  let st := run env_ok routes_demo opts_default
              (main_only 16 ++ [RunThread 1; RunThread 1; RunThread 1; RunThread 1]) in
  trace st = take 19 (trace st) ++
    (1, EvListenAndServe ":9411" (NewRecoveryHandler true (zipkinRoutes routes_demo))) :: [] /\
  proj 1 (take 19 (trace st)) = zipkin_setup opts_default.
Proof.
  intros st.
  assert (Htr : trace st = take 19 (trace st) ++
    (1, EvListenAndServe ":9411" (NewRecoveryHandler true (zipkinRoutes routes_demo))) :: [])
    by reflexivity.
  split; [exact Htr|].
  destruct (routes_mounted_before_listening env_ok routes_demo opts_default
              _ _ _ _ _ _ Htr) as [(_ & H & _)|(H & _)]; [exact H|discriminate H].
Defined.


Lemma primary_returned_nil env rt opts a :
  In (EvServeReturned a None) (events env 2 (code rt opts 2)) ->
  a = ":" +:+ Itoa (CollectorHTTPPort opts) /\
  events env 2 (code rt opts 2) =
  [EvListenAndServe a (NewRecoveryHandler true (apiRoutes rt))] ++
  EvServeReturned a None :: [EvDo (hc_Set StatusInternalServerError)].
Proof.
  rewrite (primary_events env rt opts). cbv zeta.
  destruct (serve_returns env 2 _) as [[e|]|]; intros Hin;
    repeat (destruct Hin as [Hin|Hin]; [try done|]); try done.
  by injection Hin as <-.
Qed.

Lemma count_returned_nil_primary env rt opts :
  count is_returned_nil (events env 2 (code rt opts 2)) <= 1.
Proof. unfold code, primaryHTTP. simpl. oracle; lia. Qed.

(** X14: a clean return of the primary front-end marks the collector as
    failed and leaves it running.  When http.ListenAndServe of the primary
    front-end has returned nil and hc.Set was not called yet, the next step
    of its goroutine sets the health status to 500, and the process does
    not exit. *)
Theorem primary_nil_return_sets_failed env rt opts sched a :
  let st := run env rt opts sched in
  In (2, EvServeReturned a None) (trace st) ->
  exited st = None ->
  ~ In (2, EvDo (hc_Set StatusInternalServerError)) (trace st) ->
  let st' := step env st (RunThread 2) in
  health st' = Some StatusInternalServerError /\
  exited st' = None /\
  trace st' = trace st ++ [(2, EvDo (hc_Set StatusInternalServerError))].
Proof.
  intros st Hin Hex Hns st'.
  destruct (entry_in_code env rt opts _ _ _ Hin) as [_ Hc].
  destruct (primary_returned_nil env rt opts a Hc) as [_ Hev].
  destruct (thread_exists env rt opts _ _ _ Hin) as [p Hp]. fold st in Hp.
  destruct (after_entry env rt opts sched 2 is_returned_nil _ _ _ p Hin Hev eq_refl
              (count_returned_nil_primary env rt opts) Hp) as (l2 & Hproj & Hrest).
  fold st in Hproj.
  destruct l2 as [|x l2].
  - simpl in Hrest. apply events_do_inv in Hrest as (k & -> & _).
    unfold st', step. rewrite Hex. unfold step_thread. rewrite Hp. done.
  - exfalso. injection Hrest as -> _. apply Hns, proj_In. rewrite Hproj.
    apply in_or_app. right. right. by left.
Qed.

Lemma primary_nil_return_sets_failed_witness :
  let st := run env_serve_nil routes_demo opts_default sched_primary in
  let st' := step env_serve_nil st (RunThread 2) in
  In (2, EvServeReturned ":14268" None) (trace st) /\
  exited st = None /\
  ~ In (2, EvDo (hc_Set StatusInternalServerError)) (trace st) /\
  health st = Some 204%Z /\
  health st' = Some StatusInternalServerError /\
  exited st' = None.
Proof.
  intros st st'.
  assert (Hin : In (2, EvServeReturned ":14268" None) (trace st)).
  { vm_compute. do 17 right. by left. }
  assert (Hex : exited st = None) by (vm_compute; reflexivity).
  assert (Hns : ~ In (2, EvDo (hc_Set StatusInternalServerError)) (trace st)).
  { vm_compute. intros H. repeat (destruct H as [H|H]; [discriminate H|]). exact H. }
  destruct (primary_nil_return_sets_failed env_serve_nil routes_demo opts_default
              sched_primary _ Hin Hex Hns) as (H1 & H2 & _).
  split; [exact Hin|]. split; [exact Hex|]. split; [exact Hns|].
  split; [vm_compute; reflexivity|]. split; [exact H1|exact H2].
Defined.

(** ** The writers of the health status and the listen addresses *)

(** X15: who writes the health status.  In every run a write of the health
    status is one of three: healthcheck.Serve installing 503, or hc.Ready,
    both by goroutine 0, or hc.Set(500) by the goroutine of the primary
    front-end.  The Zipkin front-end never writes it. *)
Theorem health_writers env rt opts sched t e v :
  In (t, e) (trace (run env rt opts sched)) ->
  health_write env e = Some v ->
  (t = 0 /\ e = health_served opts /\ v = StatusServiceUnavailable) \/
  (t = 0 /\ e = EvDo hc_Ready /\ v = StatusReady env) \/
  (t = 2 /\ e = EvDo (hc_Set StatusInternalServerError) /\
   v = StatusInternalServerError).
Proof.
  intros Hin Hw.
  destruct (write_cases env e) as [(Hn & _)|[(s & p & ->)|[->|(s & ->)]]].
  - by rewrite Hn in Hw.
  - left. assert (t = 0) as -> by (by eapply served_by_main).
    destruct (entry_in_code env rt opts _ _ _ Hin) as [_ Hc].
    pose proof (served_entry env rt opts _ Hc eq_refl) as He.
    split; [done|]. split; [done|]. injection He as -> _. simpl in Hw. congruence.
  - right. left. assert (t = 0) as -> by (by eapply ready_by_main).
    simpl in Hw. split; [done|]. split; [done|]. congruence.
  - right. right. destruct (set_entry env rt opts _ _ _ Hin eq_refl) as (-> & He & _).
    injection He as ->. simpl in Hw. split; [done|]. split; [done|]. congruence.
Qed.

Lemma health_writers_witness :
  let st := run env_serve_nil routes_demo opts_default (sched_primary ++ [RunThread 2]) in
  In (2, EvDo (hc_Set 500%Z)) (trace st) /\
  health_write env_serve_nil (EvDo (hc_Set 500%Z)) = Some 500%Z.
Proof.
  intros st.
  assert (Hin : In (2, EvDo (hc_Set 500%Z)) (trace st)).
  { vm_compute. do 18 right. by left. }
  split; [exact Hin|].
  destruct (health_writers env_serve_nil routes_demo opts_default _ _ _ 500%Z Hin eq_refl)
    as [(H & _)|[(H & _)|(_ & _ & _)]]; [discriminate H|discriminate H|reflexivity].
Defined.

(** X16: each write of the health status happens once at most.  In every
    run healthcheck.Serve succeeds once at most, hc.Ready is called once at
    most and hc.Set is called once at most. *)
Theorem health_written_once env rt opts sched :
  let l := (trace (run env rt opts sched)).*2 in
  count is_health_served l <= 1 /\ count is_ready l <= 1 /\ count is_set l <= 1.
Proof.
  intros l. split; [|split].
  - etrans; [apply (count_entries env rt opts _ 0), served_by_main|].
    apply (count_served_main env rt opts).
  - etrans; [apply (count_entries env rt opts _ 0), ready_by_main|].
    apply (count_ready_main env rt opts).
  - etrans; [apply (count_entries env rt opts _ 2), set_by_primary|].
    apply (count_set_primary env rt opts).
Qed.

Lemma to_int_not_nil z :
  Z.to_int z <> Decimal.Pos Decimal.Nil /\ Z.to_int z <> Decimal.Neg Decimal.Nil.
Proof.
  destruct z; simpl; split; try discriminate; intros H; injection H as H;
    by apply Unsigned.to_uint_nonnil in H.
Qed.

(** strconv.Itoa gives different strings for different numbers. *)
Lemma Itoa_inj a b : Itoa a = Itoa b -> a = b.
Proof.
  unfold Itoa. intros H. apply to_int_inj.
  pose proof (NilZero.isi (Z.to_int a) (proj1 (to_int_not_nil a))
                (proj2 (to_int_not_nil a))) as Ha.
  pose proof (NilZero.isi (Z.to_int b) (proj1 (to_int_not_nil b))
                (proj2 (to_int_not_nil b))) as Hb.
  rewrite H in Ha. rewrite Ha in Hb. by injection Hb.
Qed.

(** X17: the listen address tells the port.  If the Zipkin front-end and
    the primary front-end call http.ListenAndServe on the same address,
    then the Zipkin port and the primary HTTP port of the options are the
    same number: front-ends with different ports never ask for the same
    address. *)
Theorem same_address_same_port env rt opts sched a h1 h2 :
  In (1, EvListenAndServe a h1) (trace (run env rt opts sched)) ->
  In (2, EvListenAndServe a h2) (trace (run env rt opts sched)) ->
  CollectorZipkinHTTPPort opts = CollectorHTTPPort opts.
Proof.
  intros H1 H2.
  destruct (listen_and_serve_entry env rt opts _ _ _ _ H1)
    as [(_ & _ & Ha1 & _)|(? & _)]; [|done].
  destruct (listen_and_serve_entry env rt opts _ _ _ _ H2)
    as [(? & _)|(_ & Ha2 & _)]; [done|].
  rewrite Ha1 in Ha2. injection Ha2 as Ha2. by apply Itoa_inj.
Qed.

Lemma same_address_same_port_witness :
  let st := run env_ok routes_demo opts_shared_port
              (main_only 16 ++ [RunThread 2; RunThread 1; RunThread 1; RunThread 1; RunThread 1]) in
  In (1, EvListenAndServe ":8080" (NewRecoveryHandler true (zipkinRoutes routes_demo)))
     (trace st) /\
  In (2, EvListenAndServe ":8080" (NewRecoveryHandler true (apiRoutes routes_demo)))
     (trace st) /\
  CollectorZipkinHTTPPort opts_shared_port = CollectorHTTPPort opts_shared_port.
Proof.
  intros st.
  assert (H1 : In (1, EvListenAndServe ":8080"
                        (NewRecoveryHandler true (zipkinRoutes routes_demo))) (trace st)).
  { vm_compute. do 20 right. by left. }
  assert (H2 : In (2, EvListenAndServe ":8080"
                        (NewRecoveryHandler true (apiRoutes routes_demo))) (trace st)).
  { vm_compute. do 16 right. by left. }
  split; [exact H1|]. split; [exact H2|].
  exact (same_address_same_port env_ok routes_demo opts_shared_port _ _ _ _ H1 H2).
Defined.

(** ** Readiness is reached *)

Lemma classic_ready (tr : list (nat * Event)) :
  In (0, EvDo hc_Ready) tr \/ ~ In (0, EvDo hc_Ready) tr.
Proof.
  induction tr as [|[t e] tr [IH|IH]]; [right; intros []|left; by right|].
  destruct (decide (t = 0)) as [->|Hne].
  - destruct (is_ready e) eqn:He.
    + left. left. by destruct e as [|[]| | | | |].
    + right. intros [[= ->]|H]; [done|by apply IH].
  - right. intros [[= ? _]|H]; [done|by apply IH].
Qed.

Lemma main_ticks_snoc sched t :
  main_ticks (sched ++ [t]) =
  main_ticks sched + match t with RunThread 0 => 1 | _ => 0 end.
Proof.
  induction sched as [|x sched IH].
  - simpl. by destruct t as [[|?]|].
  - destruct x as [[|?]|]; simpl; rewrite IH; lia.
Qed.

Lemma Run_length env rt opts :
  (started env opts /\ events env 0 (Run rt opts) !! 15 = Some (EvDo hc_Ready)) \/
  length (events env 0 (Run rt opts)) <= 9.
Proof.
  unfold started, Run. simpl. oracle; simpl; try (right; lia). by left.
Qed.

(** While the process runs and is not ready, goroutine 0 has done as many
    steps as the schedule gave it. *)
Lemma main_progress env rt opts sched :
  let st := run env rt opts sched in
  exited st = None ->
  In (0, EvDo hc_Ready) (trace st) \/
  main_ticks sched <= length (proj 0 (trace st)).
Proof.
  induction sched as [|t sched IH] using rev_ind; [intros; right; simpl; lia|].
  intros st Hex.
  assert (Hst : st = step env (run env rt opts sched) t).
  { unfold st, run. by rewrite run_from_snoc. }
  assert (Hex0 : exited (run env rt opts sched) = None).
  { destruct (exited (run env rt opts sched)) as [c|] eqn:Hc; [|done].
    rewrite Hst, (step_exited env _ t c Hc) in Hex. congruence. }
  assert (Hext : exists l, trace st = trace (run env rt opts sched) ++ l).
  { unfold st, run. rewrite run_from_app. apply trace_extends. }
  destruct Hext as [l Hl].
  destruct (IH Hex0) as [Hr|Hn].
  { left. rewrite Hl. apply in_or_app. by left. }
  destruct (classic_ready (trace (run env rt opts sched))) as [Hr|Hnr].
  { left. rewrite Hl. apply in_or_app. by left. }
  right. rewrite main_ticks_snoc.
  destruct t as [[|tid]|].
  - destruct (main_moves env rt opts sched Hex0 Hnr) as [e He].
    rewrite Hst, He, proj_app, proj_one_eq, length_app. simpl. lia.
  - rewrite Hl, proj_app, length_app. lia.
  - rewrite Hl, proj_app, length_app. lia.
Qed.

(** X18: start-up reaches readiness.  Whatever the interleaving with the
    front-end goroutines and with signals, once goroutine 0 has been
    scheduled 16 times the process has exited or readiness has been
    signalled; in the latter case every start-up call had succeeded. *)
Theorem readiness_is_reached env rt opts sched :
  let st := run env rt opts sched in
  16 <= main_ticks sched ->
  exited st = None ->
  In (0, EvDo hc_Ready) (trace st) /\ started env opts.
Proof.
  intros st Hn Hex.
  assert (Hr : In (0, EvDo hc_Ready) (trace st)).
  { destruct (main_progress env rt opts sched Hex) as [Hr|Hlen]; [done|].
    fold st in Hlen.
    destruct (proj_prefix env rt opts sched 0) as [rest Hrest]. fold st in Hrest.
    change (code rt opts 0) with (Run rt opts) in Hrest.
    destruct (Run_length env rt opts) as [[_ H15]|Hshort].
    - rewrite Hrest, lookup_app_l in H15 by lia.
      apply proj_In, list_elem_of_In, list_elem_of_lookup. eauto.
    - rewrite Hrest, length_app in Hshort. lia. }
  split; [done|].
  destruct (entry_in_code env rt opts _ _ _ Hr) as [_ Hc].
  by apply (Run_ready env rt opts).
Qed.

Lemma readiness_is_reached_witness :
  let sched := main_only 8 ++ [DeliverSignal; RunThread 1] ++ main_only 8 ++
               [RunThread 2; RunThread 1] in
  let st := run env_ok routes_demo opts_default sched in
  16 <= main_ticks sched /\
  exited st = None /\
  In (0, EvDo hc_Ready) (trace st).
Proof.
  intros sched st.
  assert (Hn : 16 <= main_ticks sched) by (vm_compute; lia).
  assert (Hex : exited st = None) by (vm_compute; reflexivity).
  split; [exact Hn|]. split; [exact Hex|].
  by destruct (readiness_is_reached env_ok routes_demo opts_default sched Hn Hex).
Defined.

Lemma bound_before_go env rt opts :
  before is_bound is_go false (events env 0 (Run rt opts)) = true.
Proof. unfold Run. simpl. by oracle. Qed.

Lemma serving_before_go env rt opts :
  before is_ch_serve is_go false (events env 0 (Run rt opts)) = true.
Proof. unfold Run. simpl. by oracle. Qed.

(** X19: the front-ends start after the transport.  Whatever a front-end
    goroutine does, be it the Zipkin one or the primary one, goroutine 0
    has before that bound the transport listener without error and handed
    it to ch.Serve. *)
Theorem frontends_after_transport env rt opts sched pre t e post :
  trace (run env rt opts sched) = pre ++ (t, e) :: post ->
  t <> 0 ->
  In (0, bound opts) pre /\ In (0, EvDo ch_Serve) pre.
Proof.
  intros Htr Hne.
  destruct (thread_view env rt opts _ _ _ _ _ Htr) as (_ & _ & Hgo).
  specialize (Hgo Hne). apply in_split in Hgo as (x & y & ->).
  rewrite <- app_assoc in Htr. simpl in Htr.
  destruct (main_before env rt opts is_bound is_go sched x _ _
              (bound_before_go env rt opts) Htr eq_refl) as (e1 & H1 & Hq1).
  destruct (main_before env rt opts is_ch_serve is_go sched x _ _
              (serving_before_go env rt opts) Htr eq_refl) as (e2 & H2 & Hq2).
  assert (He1 : e1 = bound opts).
  { assert (Hin : In (0, e1) (trace (run env rt opts sched))).
    { rewrite Htr. apply in_or_app. by left. }
    destruct (entry_in_code env rt opts _ _ _ Hin) as [_ Hc].
    by apply (bound_address env rt opts). }
  subst e1. destruct e2 as [|[]| | | | |]; try done.
  split; apply in_or_app; by left.
Qed.

Lemma frontends_after_transport_witness :
  let st := run env_ok routes_demo opts_default (main_only 13 ++ [RunThread 1]) in
  trace st = take 13 (trace st) ++ (1, EvDo NewRouter) :: [] /\
  In (0, bound opts_default) (take 13 (trace st)) /\
  In (0, EvDo ch_Serve) (take 13 (trace st)).
Proof.
  intros st.
  assert (Htr : trace st = take 13 (trace st) ++ (1, EvDo NewRouter) :: [])
    by reflexivity.
  split; [exact Htr|].
  apply (frontends_after_transport env_ok routes_demo opts_default _ _ _ _ _ Htr).
  discriminate.
Defined.

(** ** The transport bind, for every port *)

(** A part of a list that reaches past a stretch without [Q] and holds an
    element with [Q] holds the element after the stretch. *)
Lemma prefix_reaches (Q : Event -> bool) l rest quiet_part x tail :
  l ++ rest = quiet_part ++ x :: tail ->
  (exists y, In y l /\ Q y = true) ->
  forallb (fun e => negb (Q e)) quiet_part = true ->
  In x l.
Proof.
  revert l. induction quiet_part as [|a pm IH]; intros l Heq (y & Hy & HQ) Hq.
  - destruct l as [|z l]; [done|]. simpl in Heq. injection Heq as -> _. by left.
  - simpl in Hq. apply andb_prop in Hq as [Ha Hq].
    destruct l as [|z l]; [done|]. simpl in Heq. injection Heq as -> Heq.
    right. destruct Hy as [->|Hy].
    + by rewrite HQ in Ha.
    + apply IH; eauto.
Qed.

Section Bind.
Context (env : Env) (rt : Routes) (opts : CollectorOptions).

Abbreviation tr sched := (trace (run env rt opts sched)).
Abbreviation main := (events env 0 (Run rt opts)).
Abbreviation listen := (net_Listen "tcp" (":" +:+ Itoa (CollectorPort opts))).

Lemma Run_reaches_bind :
  reaches_bind env opts ->
  exists tail, main = before_listen opts ++ EvCall listen (answer env listen) :: tail.
Proof.
  intros (H1 & H2 & H3). unfold Run, before_listen, health_served. simpl.
  rewrite H1. simpl. rewrite H2. simpl. rewrite H3. simpl. by eexists.
Qed.

Lemma before_listen_not_late :
  forallb (fun e => negb (is_late e)) (before_listen opts) = true.
Proof. done. Qed.

(** When the earlier calls succeed, net.Listen is called by the eighth
    step of goroutine 0, in every interleaving and for every port. *)
Lemma listen_reached sched :
  reaches_bind env opts -> 8 <= main_ticks sched ->
  In (0, EvCall listen (answer env listen)) (tr sched).
Proof.
  intros Hrb Hn. destruct (Run_reaches_bind Hrb) as [tail Hmain].
  destruct (proj_prefix env rt opts sched 0) as [rest Hrest].
  change (code rt opts 0) with (Run rt opts) in Hrest. symmetry in Hrest.
  apply proj_In.
  assert (Hlate : (exists y, In y (proj 0 (tr sched)) /\ is_late y = true) ->
                  In (EvCall listen (answer env listen)) (proj 0 (tr sched))).
  { intros Hy. rewrite Hmain in Hrest.
    by apply (prefix_reaches is_late _ _ _ _ _ Hrest Hy before_listen_not_late). }
  destruct (exited (run env rt opts sched)) as [c|] eqn:Hex.
  - pose proof (run_inv env (Run rt opts) sched) as [_ Hthr _ _ _ _ Hexit].
    fold (run env rt opts sched) in Hthr, Hexit.
    destruct (Hexit c Hex) as [[_ (t & msg & err & Hin)]|[_ Hret]].
    + apply Hlate. destruct (decide (t = 0)) as [->|Hne].
      * exists (EvFatal msg err). split; [by apply proj_In|done].
      * apply in_split in Hin as (pre & post & Htr).
        destruct (thread_view env rt opts _ _ _ _ _ Htr) as (_ & _ & Hgo).
        exists (EvGo (code rt opts t)). split; [|done].
        apply proj_In. rewrite Htr. apply in_or_app. left. by apply Hgo.
    + pose proof (Hthr 0 Ret (Run rt opts) Hret eq_refl) as Hev.
      change (events env 0 Ret) with (@nil Event) in Hev. rewrite app_nil_r in Hev.
      rewrite Hev, Hmain. apply in_or_app. right. by left.
  - destruct (main_progress env rt opts sched Hex) as [Hr|Hlen].
    + apply Hlate. exists (EvDo hc_Ready). split; [by apply proj_In|done].
    + assert (H7 : main !! 7 = Some (EvCall listen (answer env listen))).
      { by rewrite Hmain. }
      rewrite <- Hrest, lookup_app_l in H7 by lia.
      apply list_elem_of_In, list_elem_of_lookup. eauto.
Qed.

(** When every start-up call succeeds, goroutine 0 logs nothing fatal. *)
Lemma started_no_main_fatal sched t msg err :
  started env opts -> In (t, EvFatal msg err) (tr sched) -> t <> 0.
Proof.
  intros Hs Hin ->. destruct (entry_in_code env rt opts _ _ _ Hin) as [_ Hc].
  change (code rt opts 0) with (Run rt opts) in Hc.
  rewrite (Run_started env rt opts Hs) in Hc.
  apply in_app_or in Hc as [Hc|Hc]; [|apply in_app_or in Hc as [Hc|Hc]];
    simpl in Hc; by repeat (destruct Hc as [Hc|Hc]; [done|]).
Qed.

(** A fatal log of the bind step follows a failed net.Listen. *)
Lemma bind_fatal_cause sched t err :
  In (t, EvFatal "Unable to start listening on channel" err) (tr sched) ->
  t = 0 /\ answer env listen = Some err /\
  In (0, EvCall listen (Some err)) (tr sched) /\
  exited (run env rt opts sched) = Some 1%Z.
Proof.
  intros Hin.
  destruct (entry_in_code env rt opts _ _ _ Hin) as [Hle Hc].
  assert (t = 0) as ->.
  { destruct t as [|[|[|t]]]; [done| | |lia]; exfalso; revert Hc.
    - unfold code, startZipkinHTTPAPI. case_decide as Hz; simpl; [|done].
      destruct (serve_returns env 1 _) as [[?|]|]; simpl;
        intros Hx; repeat (destruct Hx as [Hx|Hx]; [done|]); done.
    - unfold code, primaryHTTP. simpl.
      destruct (serve_returns env 2 _) as [[?|]|]; simpl;
        intros Hx; repeat (destruct Hx as [Hx|Hx]; [done|]); done. }
  split; [done|].
  pose proof (listen_fatal env rt opts err Hc) as Hcall.
  destruct (listen_call env rt opts _ _ _ Hcall) as (_ & _ & Hans).
  split; [done|].
  destruct (Run_listen_failed env rt opts _ _ _ Hcall) as (_ & _ & Hmain).
  split.
  - apply in_split in Hin as (pre & post & Htr).
    destruct (thread_view env rt opts _ _ _ _ _ Htr) as (_ & (rest & Hr) & _).
    change (code rt opts 0) with (Run rt opts) in Hr.
    destruct (split_unique is_fatal _ _ _ _ _ _ _
                (count_fatal_main env rt opts) Hmain Hr eq_refl eq_refl)
      as (Hpre & _ & _).
    rewrite Htr. apply in_or_app. left. apply proj_In.
    rewrite <- Hpre. apply in_or_app. right. by left.
  - pose proof (run_inv env (Run rt opts) sched) as [_ _ _ _ _ Hfatal _].
    by eapply Hfatal.
Qed.

(** A failed net.Listen is followed by the fatal log of the bind step as
    soon as goroutine 0 is scheduled. *)
Lemma bind_error_fatal sched sched' t err :
  In (t, EvCall listen (Some err)) (tr sched) ->
  In (RunThread 0) sched' ->
  exited (run env rt opts (sched ++ sched')) = Some 1%Z /\
  In (0, EvFatal "Unable to start listening on channel" err) (tr (sched ++ sched')).
Proof.
  intros Hin Hs.
  destruct (call_by_main env rt opts _ _ _ _ Hin) as [-> Hc].
  destruct (Run_listen_failed env rt opts _ _ _ Hc) as (_ & _ & Hmain).
  destruct (failure_exits env rt opts _ _ _ _ _ Hin Hs) as [Hex Ht].
  split; [done|]. rewrite Ht, Hmain, map_app. apply in_or_app. right. by left.
Qed.

End Bind.

(** C2, as the code has it: the RPC port is not checked.  Whatever the
    port, 0 included: (1) net.Listen is only ever called by goroutine 0, on
    "tcp" and ":" followed by the decimal port; (2) when the three earlier
    start-up calls return nil, that call is made by the eighth step of
    goroutine 0 in every interleaving, so no port is turned away before
    the bind; (3) a fatal log of the bind step follows a failed net.Listen
    and the process has exited with code 1; (4) a failed net.Listen is
    followed, at the next step of goroutine 0, by the fatal log of the bind
    step with the error of the call and by exit code 1; (5) when net.Listen
    and the other start-up calls return nil, goroutine 0 logs nothing
    fatal. *)
Theorem bind_fatal_exactly_on_listen_error env rt opts :
  let portStr := ":" +:+ Itoa (CollectorPort opts) in
  let listen := net_Listen "tcp" portStr in
  (forall sched t network addr r,
     In (t, EvCall (net_Listen network addr) r) (trace (run env rt opts sched)) ->
     t = 0 /\ network = "tcp" /\ addr = portStr /\ r = answer env listen) /\
  (reaches_bind env opts ->
   forall sched, 8 <= main_ticks sched ->
     In (0, EvCall listen (answer env listen)) (trace (run env rt opts sched))) /\
  (forall sched t err,
     In (t, EvFatal "Unable to start listening on channel" err)
        (trace (run env rt opts sched)) ->
     t = 0 /\ answer env listen = Some err /\
     In (0, EvCall listen (Some err)) (trace (run env rt opts sched)) /\
     exited (run env rt opts sched) = Some 1%Z) /\
  (forall sched sched' t err,
     In (t, EvCall listen (Some err)) (trace (run env rt opts sched)) ->
     In (RunThread 0) sched' ->
     exited (run env rt opts (sched ++ sched')) = Some 1%Z /\
     In (0, EvFatal "Unable to start listening on channel" err)
        (trace (run env rt opts (sched ++ sched')))) /\
  (started env opts ->
   forall sched t msg err,
     In (t, EvFatal msg err) (trace (run env rt opts sched)) -> t <> 0).
Proof.
  intros portStr listen. split; [|split; [|split; [|split]]].
  - intros sched t network addr r Hin.
    destruct (call_by_main env rt opts _ _ _ _ Hin) as [-> Hc].
    split; [done|]. by apply (listen_call env rt opts).
  - intros Hrb sched Hn. by apply listen_reached.
  - intros sched t err Hin. by apply bind_fatal_cause.
  - intros sched sched' t err Hin Hs. by eapply bind_error_fatal.
  - intros Hs sched t msg err Hin. by eapply started_no_main_fatal.
Qed.

Lemma bind_fatal_exactly_on_listen_error_witness :
  let listen := net_Listen "tcp" ":0" in
  let st := run env_bind_fails routes_demo opts_rpc_port_zero
              (main_only 8 ++ [RunThread 0]) in
  In (0, EvCall listen (Some "bind: address already in use"))
     (trace (run env_bind_fails routes_demo opts_rpc_port_zero (main_only 8))) /\
  exited st = Some 1%Z /\
  In (0, EvFatal "Unable to start listening on channel" "bind: address already in use")
     (trace st) /\
  answer env_bind_fails listen = Some "bind: address already in use".
Proof.
  intros listen st.
  destruct (bind_fatal_exactly_on_listen_error env_bind_fails routes_demo
              opts_rpc_port_zero) as (_ & Hreach & Hcause & Hfatal & _).
  assert (Hrb : reaches_bind env_bind_fails opts_rpc_port_zero).
  { split; [|split]; vm_compute; reflexivity. }
  assert (Hn : 8 <= main_ticks (main_only 8)).
  { vm_compute. lia. }
  pose proof (Hreach Hrb (main_only 8) Hn) as Hcall.
  assert (Hs : In (RunThread 0) [RunThread 0]) by (by left).
  destruct (Hfatal (main_only 8) [RunThread 0] 0 _ Hcall Hs) as [Hex Hin].
  destruct (Hcause _ _ _ Hin) as (_ & Hans & _ & _).
  split; [exact Hcall|]. split; [exact Hex|]. split; [exact Hin|exact Hans].
Defined.

(** ** The causes of a fatal log *)

Section FatalCauses.
Context (env : Env) (rt : Routes) (opts : CollectorOptions).

Ltac find_cause :=
  eexists; split; [repeat (first [by left | right])|done].

Lemma fatal_after_main : fatal_after opts 0 None (events env 0 (Run rt opts)).
Proof.
  unfold Run. simpl. oracle; repeat split; find_cause.
Qed.

Lemma fatal_after_zipkin : fatal_after opts 1 None (events env 1 (code rt opts 1)).
Proof.
  unfold code, startZipkinHTTPAPI. case_decide; simpl; [|done].
  oracle; repeat split; find_cause.
Qed.

Lemma fatal_after_primary : fatal_after opts 2 None (events env 2 (code rt opts 2)).
Proof.
  unfold code, primaryHTTP. simpl. oracle; repeat split; find_cause.
Qed.

Lemma fatal_after_split t prev l1 msg err l2 :
  fatal_after opts t prev (l1 ++ EvFatal msg err :: l2) ->
  exists cause, In (t, msg, cause) (fatal_causes opts) /\
    from_option Some prev (last l1) = Some (cause err).
Proof.
  revert prev. induction l1 as [|a l1 IH]; intros prev H.
  - by destruct H as [H _].
  - destruct H as [_ H]. destruct (IH _ H) as (cause & Hin & Hl).
    exists cause. split; [done|]. rewrite last_cons.
    by destruct (last l1).
Qed.

Lemma zipkin_off_silent : CollectorZipkinHTTPPort opts = 0%Z ->
  events env 1 (code rt opts 1) = [].
Proof. intros H. unfold code, startZipkinHTTPAPI. by case_decide. Qed.

End FatalCauses.

(** X1: every fatal log has one of the six causes of main.go.  A fatal
    entry of a run is logged either by goroutine 0, with the message of one
    of its four fallible start-up calls, or by the goroutine of a
    front-end, with "Could not launch service"; the event of that goroutine
    directly before it is the failure it reports, the call or the return
    of http.ListenAndServe on the front-end's address, with the error that
    is logged.  The goroutine of the Zipkin front-end logs nothing fatal
    when the front-end is switched off. *)
Theorem fatal_has_cause env rt opts sched pre t msg err post :
  trace (run env rt opts sched) = pre ++ (t, EvFatal msg err) :: post ->
  (exists cause, In (t, msg, cause) (fatal_causes opts) /\
                 last (proj t pre) = Some (cause err)) /\
  (t = 1 -> CollectorZipkinHTTPPort opts <> 0%Z).
Proof.
  intros Htr.
  destruct (thread_view env rt opts _ _ _ _ _ Htr) as (Hle & (rest & Hr) & _).
  split.
  - assert (Hfa : fatal_after opts t None (events env t (code rt opts t))).
    { destruct t as [|[|[|t]]]; [| | |lia].
      - apply fatal_after_main.
      - apply fatal_after_zipkin.
      - apply fatal_after_primary. }
    rewrite Hr in Hfa.
    destruct (fatal_after_split opts _ _ _ _ _ _ Hfa) as (cause & Hin & Hl).
    exists cause. split; [done|]. by destruct (last (proj t pre)).
  - intros -> Hz. rewrite (zipkin_off_silent env rt opts Hz) in Hr.
    by destruct (proj 1 pre).
Qed.

Lemma fatal_has_cause_witness :
  let st := run env_zipkin_error routes_demo opts_default
              (sched_zipkin ++ [RunThread 1]) in
  trace st = take 21 (trace st) ++
             (1, EvFatal "Could not launch service" "bind: address already in use") :: [] /\
  last (proj 1 (take 21 (trace st))) =
    Some (EvServeReturned ":9411" (Some "bind: address already in use")).
Proof.
  intros st.
  assert (Htr : trace st = take 21 (trace st) ++
            (1, EvFatal "Could not launch service" "bind: address already in use") :: [])
    by reflexivity.
  split; [exact Htr|].
  destruct (fatal_has_cause env_zipkin_error routes_demo opts_default _ _ _ _ _ _ Htr)
    as [(cause & Hin & Hlast) _].
  repeat (destruct Hin as [Hin|Hin]; [try discriminate Hin|]); [|destruct Hin].
  injection Hin as <-. exact Hlast.
Defined.
